(** * Adaptor trimming for short reads ([align/adaptor_trim.py])

    A shallow embedding of [_remove_adaptor], [trim_adaptor],
    [trim_adaptor_w_qual] and the batch driver [main], together with the
    part of Python's string semantics they rely on ([find], [rfind],
    slicing with negative and out-of-range bounds, [replace]).

    The local aligner ([pairwise2.align.localms]) and the [SeqRecord]
    class come from Biopython and are not part of the sources.  The call
    to the aligner is kept as a node of the program tree, to be answered
    by whatever aligner the program is run against.  Records live in a
    store and are passed by reference, so that handing back the object
    received and building a new one are told apart. *)

From Stdlib Require Import Ascii String.
From Stdlib Require Import List ZArith Bool Lia.
Import ListNotations.
Open Scope Z_scope.

(** ** Python strings *)

Definition str := list ascii.

Definition lit (s : string) : str := list_ascii_of_string s.

(** [len(s)] *)
Definition len {A : Type} (s : list A) : Z := Z.of_nat (length s).

(** [s.startswith(p)] *)
Fixpoint startswith (s p : str) : bool :=
  match p, s with
  | [], _ => true
  | _ :: _, [] => false
  | c :: p', d :: s' => Ascii.eqb c d && startswith s' p'
  end.

(** Lowest index at which [sub] occurs in [s]. *)
Fixpoint find_index (s sub : str) : option nat :=
  if startswith s sub then Some 0%nat
  else match s with
       | [] => None
       | _ :: s' => option_map S (find_index s' sub)
       end.

(** Highest index at which [sub] occurs in [s]. *)
Fixpoint rfind_index (s sub : str) : option nat :=
  match s with
  | [] => if startswith [] sub then Some 0%nat else None
  | _ :: s' =>
      match rfind_index s' sub with
      | Some i => Some (S i)
      | None => if startswith s sub then Some 0%nat else None
      end
  end.

(** [s.find(sub)] and [s.rfind(sub)]: the index, or [-1]. *)
Definition find (s sub : str) : Z :=
  match find_index s sub with Some i => Z.of_nat i | None => -1 end.

Definition rfind (s sub : str) : Z :=
  match rfind_index s sub with Some i => Z.of_nat i | None => -1 end.

(** A slice bound as Python normalises it: a negative bound counts from
    the end, and every bound is clipped to [0 .. n]. *)
Definition slice_bound (n i : Z) : Z :=
  if i <? 0 then Z.max (i + n) 0 else Z.min i n.

(** [s[lo:hi]], either bound possibly omitted. *)
Definition slice {A : Type} (s : list A) (lo hi : option Z) : list A :=
  let n := len s in
  let start := match lo with Some i => slice_bound n i | None => 0 end in
  let stop := match hi with Some i => slice_bound n i | None => n end in
  firstn (Z.to_nat (stop - start)) (skipn (Z.to_nat start) s).

(** [s.replace(old, new)] for a one-character [old]. *)
Definition replace (s : str) (old : ascii) (new : str) : str :=
  flat_map (fun c => if Ascii.eqb c old then new else [c]) s.

(** [enumerate(s)] *)
Fixpoint enumerate_from {A : Type} (i : nat) (s : list A) : list (nat * A) :=
  match s with
  | [] => []
  | x :: s' => (i, x) :: enumerate_from (S i) s'
  end.

Definition enumerate {A : Type} (s : list A) : list (nat * A) :=
  enumerate_from 0 s.

(** ** Objects

    A read is handed over either as a string (a [Bio.Seq] behaves as one
    for every operation used here: [str], [find], [rfind], slicing,
    [len]) or as a reference to a [SeqRecord] in the store. *)

(** Modelled from the spec: the [SeqRecord] class belongs to Biopython and
    is absent from the sources.  A record carries the fields the tests
    construct it with. *)
Record SeqRecord : Type := mkSeqRecord {
  rec_seq : str;
  rec_id : str;
  rec_name : str;
  rec_description : str
}.

Definition loc := nat.
Definition heap := list SeqRecord.

Inductive value : Type :=
| VStr (s : str)
| VRec (l : loc).

(** One alignment as [localms] returns it:
    [(seq_a, adaptor_a, score, start, end)].  The score is a float that the
    trimmer never reads; it is kept in tenths. *)
Record Alignment : Type := mkAlignment {
  seq_a : str;
  adaptor_a : str;
  score : Z;
  start : Z;
  end_ : Z
}.

(** ** Programs: exceptions, the store, and the call to the aligner *)

Inductive exn : Type :=
| IndexError
| AssertionError
| AttributeError
| TypeError
| SystemError.

Inductive prog (A : Type) : Type :=
| Ret (a : A)
| Raise (e : exn)
| Localms (s p : str) (k : list Alignment -> prog A).

Arguments Ret {A} a.
Arguments Raise {A} e.
Arguments Localms {A} s p k.

Fixpoint pbind {A B : Type} (m : prog A) (f : A -> prog B) : prog B :=
  match m with
  | Ret a => f a
  | Raise e => Raise e
  | Localms s p k => Localms s p (fun r => pbind (k r) f)
  end.

(** What a run ends in. *)
Inductive outcome (A : Type) : Type :=
| Returns (a : A)
| Raises (e : exn).

Arguments Returns {A} a.
Arguments Raises {A} e.

(** Run a program against an aligner. *)
Fixpoint run {A : Type} (aligner : str -> str -> list Alignment)
  (m : prog A) : outcome A :=
  match m with
  | Ret a => Returns a
  | Raise e => Raises e
  | Localms s p k => run aligner (k (aligner s p))
  end.

(** The program makes no call to the aligner. *)
Definition no_alignment_call {A : Type} (m : prog A) : Prop :=
  match m with
  | Ret _ => True
  | Raise _ => True
  | Localms _ _ _ => False
  end.

Definition M (A : Type) : Type := heap -> prog (A * heap).

Definition ret {A : Type} (a : A) : M A := fun h => Ret (a, h).

Definition raise {A : Type} (e : exn) : M A := fun _ => Raise e.

Definition bind {A B : Type} (m : M A) (f : A -> M B) : M B :=
  fun h => pbind (m h) (fun ah => f (fst ah) (snd ah)).

Notation "x <- m ;; k" := (bind m (fun x => k))
  (at level 61, m at next level, right associativity).

Notation "' pat <- m ;; k" := (bind m (fun x => match x with pat => k end))
  (at level 61, pat pattern, m at next level, right associativity).

(** [pairwise2.align.localms(seq, adaptor, 5.0, -4.0, -9.0, -0.5,
    one_alignment_only=True, gap_char=gap_char)] *)
Definition localms (s p : str) : M (list Alignment) :=
  fun h => Localms s p (fun r => Ret (r, h)).

(** Follow a reference.  Python never holds a reference to nothing;
    [SystemError] stands for that unreachable case. *)
Definition deref (l : loc) : M SeqRecord :=
  fun h => match nth_error h l with
           | Some r => Ret (r, h)
           | None => Raise SystemError
           end.

(** Allocate a new record. *)
Definition alloc (r : SeqRecord) : M value :=
  fun h => Ret (VRec (length h), h ++ [r]).

(** ** The trimmer *)

Definition gap_char : ascii := "-"%char.

Section Trimmer.

(** [str(record)] is Biopython's business; the trimmer is modelled for
    any rendering of a record as text. *)
Variable record_str : SeqRecord -> str.

(** [str(seq)] *)
Definition py_str (seq : value) : M str :=
  match seq with
  | VStr s => ret s
  | VRec l => r <- deref l ;; ret (record_str r)
  end.

(** [len(seq)]; the length of a record is that of its sequence. *)
Definition py_len (seq : value) : M Z :=
  match seq with
  | VStr s => ret (len s)
  | VRec l => r <- deref l ;; ret (len (rec_seq r))
  end.

(** A copy of [r] with only its sequence field replaced. *)
Definition with_seq (r : SeqRecord) (s : str) : SeqRecord :=
  {| rec_seq := s;
     rec_id := rec_id r;
     rec_name := rec_name r;
     rec_description := rec_description r |}.

(** Modelled from the spec: slicing a [SeqRecord] (Biopython, absent from
    the sources) builds a copy of the record with only its sequence field
    replaced, here by the slice of the sequence. *)
Definition getslice (seq : value) (lo hi : option Z) : M value :=
  match seq with
  | VStr s => ret (VStr (slice s lo hi))
  | VRec l =>
      r <- deref l ;;
      alloc (with_seq r (slice (rec_seq r) lo hi))
  end.

(** [try: seq.find(region) except AttributeError: seq.seq.find(region)] *)
Definition find_or_seq_find (seq : value) (region : str) : M Z :=
  match seq with
  | VStr s => ret (find s region)
  | VRec l => r <- deref l ;; ret (find (rec_seq r) region)
  end.

(** [try: seq.rfind(region) except AttributeError: seq.seq.rfind(region)] *)
Definition rfind_or_seq_rfind (seq : value) (region : str) : M Z :=
  match seq with
  | VStr s => ret (rfind s region)
  | VRec l => r <- deref l ;; ret (rfind (rec_seq r) region)
  end.

Definition _remove_adaptor (seq : value) (region : str) (right_side : bool)
  : M value :=
  if right_side then
    pos <- find_or_seq_find seq region ;;
    getslice seq None (Some pos)
  else
    pos <- rfind_or_seq_rfind seq region ;;
    getslice seq (Some (pos + len region)) None.

(** [sum((1 if s == adapt_region[i] else 0) for i, s in items)];
    [None] is the [IndexError] of [adapt_region[i]]. *)
Fixpoint sum_matches (adapt_region : str) (items : list (nat * ascii))
  : option Z :=
  match items with
  | [] => Some 0
  | (i, s) :: rest =>
      match nth_error adapt_region i with
      | None => None
      | Some a =>
          match sum_matches adapt_region rest with
          | None => None
          | Some m => Some ((if Ascii.eqb s a then 1 else 0) + m)
          end
      end
  end.

Definition count_matches (seq_region adapt_region : str) : M Z :=
  match sum_matches adapt_region (enumerate seq_region) with
  | Some m => ret m
  | None => raise IndexError
  end.

(** Lines 60-74 of [trim_adaptor]: the read-side and the adaptor-side
    region, [(seq_region, adapt_region)]. *)
Definition match_regions (seq : value) (adaptor : str) : M (str * str) :=
  s <- py_str seq ;;
  let exact_pos := find s adaptor in
  if exact_pos >=? 0 then
    piece <- getslice seq (Some exact_pos) (Some (exact_pos + len adaptor)) ;;
    seq_region <- py_str piece ;;
    ret (seq_region, adaptor)
  else
    aligns <- localms s adaptor ;;
    match aligns with
    | [] => ret ([], [])
    | a :: _ =>
        let adapt_region := slice (adaptor_a a) (Some (start a)) (Some (end_ a)) in
        let seq_region := slice (seq_a a) (Some (start a)) (Some (end_ a)) in
        ret (seq_region, adapt_region)
    end.

(** Lines 75-83 of [trim_adaptor]: count the matches, then keep the read
    as it is or remove the adaptor. *)
Definition trim_by_regions (seq : value) (adaptor : str) (num_errors : Z)
  (right_side : bool) (regions : str * str) : M value :=
  let '(seq_region, adapt_region) := regions in
  matches <- count_matches seq_region adapt_region ;;
  (* too many errors -- no trimming *)
  if len adaptor - matches >? num_errors then ret seq
  (* remove the adaptor sequence and return the result *)
  else _remove_adaptor seq (replace seq_region gap_char []) right_side.

Definition trim_adaptor (seq : value) (adaptor : str) (num_errors : Z)
  (right_side : bool) : M value :=
  regions <- match_regions seq adaptor ;;
  trim_by_regions seq adaptor num_errors right_side regions.

(** [assert cond] *)
Definition assert (cond : bool) : M unit :=
  if cond then ret tt else raise AssertionError.

(** [seq.find(tseq)] and [seq.rfind(tseq)] with no fallback: a record has
    neither method, and a string searches for strings only. *)
Definition find_method (seq tseq : value) : M Z :=
  match seq, tseq with
  | VStr s, VStr t => ret (find s t)
  | VStr _, VRec _ => raise TypeError
  | VRec _, _ => raise AttributeError
  end.

Definition rfind_method (seq tseq : value) : M Z :=
  match seq, tseq with
  | VStr s, VStr t => ret (rfind s t)
  | VStr _, VRec _ => raise TypeError
  | VRec _, _ => raise AttributeError
  end.

Definition trim_adaptor_w_qual (seq : value) (qual : str) (adaptor : str)
  (num_errors : Z) (right_side : bool) : M (value * str) :=
  n <- py_len seq ;;
  _ <- assert (n =? len qual) ;;
  tseq <- trim_adaptor seq adaptor num_errors right_side ;;
  pos <- (if right_side then find_method seq tseq
          else rfind_method seq tseq) ;;
  tn <- py_len tseq ;;
  let tqual := slice qual (Some pos) (Some (pos + tn)) in
  _ <- assert (tn =? len tqual) ;;
  ret (tseq, tqual).

(** ** The batch driver *)

(** A record as [SeqIO.parse] yields it from a FASTQ file: identifier,
    sequence, per-letter annotations (the qualities). *)
Record FastqRecord : Type := mkFastqRecord {
  fq_id : str;
  fq_seq : value;
  fq_letter_annotations : list (str * list Z)
}.

(** The body of the loop of [main]; [out] is what has been written to
    [out_handle] so far, each record as it was when written. *)
Definition main_body (adaptor_seq : str) (num_errors : Z)
  (out : list FastqRecord) (rec : FastqRecord) : M (list FastqRecord) :=
  trim <- trim_adaptor (fq_seq rec) adaptor_seq num_errors true ;;
  n <- py_len trim ;;
  m <- py_len (fq_seq rec) ;;
  if (n >? 0) && (n <? m) then
    (* rec.letter_annotations = {} and then rec.seq = trim *)
    let rec1 := {| fq_id := fq_id rec;
                   fq_seq := fq_seq rec;
                   fq_letter_annotations := [] |} in
    let rec2 := {| fq_id := fq_id rec1;
                   fq_seq := trim;
                   fq_letter_annotations := fq_letter_annotations rec1 |} in
    ret (out ++ [rec2])
  else ret out.

Fixpoint main_loop (adaptor_seq : str) (num_errors : Z)
  (records : list FastqRecord) (out : list FastqRecord)
  : M (list FastqRecord) :=
  match records with
  | [] => ret out
  | rec :: rest =>
      out' <- main_body adaptor_seq num_errors out rec ;;
      main_loop adaptor_seq num_errors rest out'
  end.

(** [main], given the records of [in_file] and [int(num_errors)];
    the result is the content of [out_file]. *)
Definition main (records : list FastqRecord) (adaptor_seq : str)
  (num_errors : Z) : M (list FastqRecord) :=
  main_loop adaptor_seq num_errors records [].

End Trimmer.

(** ** Concrete aligners and renderings, for running the model *)

(** A rendering of a record that delegates to its inner sequence. *)
Definition inner_str (r : SeqRecord) : str := rec_seq r.

(** A rendering in the manner of the summary Biopython prints for a
    record: identifier, name, description, number of features, then the
    sequence in its [repr]; here for a record without features or
    annotations, a sequence short enough to be shown in full, and the
    alphabet of the tests. *)
Definition summary_str (r : SeqRecord) : str :=
  lit "ID: " ++ rec_id r ++ [ascii_of_nat 10]
  ++ lit "Name: " ++ rec_name r ++ [ascii_of_nat 10]
  ++ lit "Description: " ++ rec_description r ++ [ascii_of_nat 10]
  ++ lit "Number of features: 0" ++ [ascii_of_nat 10]
  ++ lit "Seq('" ++ rec_seq r ++ lit "', IUPACUnambiguousDNA())".

(** An aligner that finds nothing. *)
Definition no_alignment (s p : str) : list Alignment := [].

Definition str_eqb (a b : str) : bool :=
  if list_eq_dec ascii_dec a b then true else false.

(** An aligner given by a table of answers. *)
Fixpoint table_aligner (table : list (str * str * list Alignment))
  (s p : str) : list Alignment :=
  match table with
  | [] => []
  | (s', p', r) :: rest =>
      if str_eqb s s' && str_eqb p p' then r else table_aligner rest s p
  end.

(** The inputs of the tests. *)
Definition t_adaptor : str := lit "GATCGATCGATC".
Definition t_1_read : str := lit "GGGGATCGATCGATCCCC".
Definition t_2_read : str := lit "GGGGATCGTTCGATCCCC".
Definition t_5_qual : str := lit "YDV`a`a^[Xa`a`^`_O".
Definition t_6_adaptor : str := lit "AAAAAAAAAAAAAA".
Definition t_6_read : str := lit "TTTTTTTTTTTTTTTTT".

Definition t_4_record : SeqRecord :=
  {| rec_seq := t_2_read;
     rec_id := lit "test_id";
     rec_name := lit "test_name";
     rec_description := lit "test_d" |}.

(** The record of test [t_4] with the read of test [t_1], which holds
    the adaptor verbatim. *)
Definition t_1_record : SeqRecord :=
  {| rec_seq := t_1_read;
     rec_id := lit "test_id";
     rec_name := lit "test_name";
     rec_description := lit "test_d" |}.

(** The best local alignment of the read of test [t_2] against the
    adaptor: twelve columns, one mismatch, score 11 * 5.0 - 4.0. *)
Definition t_2_alignment : Alignment :=
  {| seq_a := t_2_read;
     adaptor_a := lit "---GATCGATCGATC---";
     score := 510;
     start := 3;
     end_ := 15 |}.

Definition t_2_aligner : str -> str -> list Alignment :=
  table_aligner [(t_2_read, t_adaptor, [t_2_alignment])].

(** A read and an adaptor that hold the gap marker. *)
Definition gapped_read : str := lit "A-C".

(** Two records of a FASTQ file. *)
Definition fq_1 : FastqRecord :=
  {| fq_id := lit "read_1";
     fq_seq := VStr t_2_read;
     fq_letter_annotations :=
       [(lit "phred_quality",
         [56; 35; 53; 63; 64; 63; 64; 61; 58; 55; 64; 63; 64; 63; 61; 63; 62; 46])] |}.

Definition fq_2 : FastqRecord :=
  {| fq_id := lit "read_2";
     fq_seq := VStr t_6_read;
     fq_letter_annotations :=
       [(lit "phred_quality",
         [40; 40; 40; 40; 40; 40; 40; 40; 40; 40; 40; 40; 40; 40; 40; 40; 40])] |}.

(** ** Vocabulary of the statements *)

(** [sub] occurs in [s] at index [i]. *)
Definition occurs_at (s sub : str) (i : nat) : Prop :=
  exists p q, s = p ++ sub ++ q /\ length p = i.

Definition first_occurrence (s sub : str) (i : nat) : Prop :=
  occurs_at s sub i /\ forall j, occurs_at s sub j -> (i <= j)%nat.

Definition last_occurrence (s sub : str) (i : nat) : Prop :=
  occurs_at s sub i /\ forall j, occurs_at s sub j -> (j <= i)%nat.

Definition substring (sub s : str) : Prop := exists i, occurs_at s sub i.

Definition is_prefix (p s : str) : Prop := exists q, s = p ++ q.

Definition is_suffix (q s : str) : Prop := exists p, s = p ++ q.

(** No gap marker among the symbols. *)
Definition gap_free (s : str) : Prop := ~ In gap_char s.

(** Number of positions of the read-side region at which the adaptor-side
    region holds the same symbol. *)
Definition agreeing (seq_region adapt_region : str) : Z :=
  len (filter (fun sa => Ascii.eqb (fst sa) (snd sa))
         (combine seq_region adapt_region)).

(** The two rows of an alignment have one length. *)
Definition aligned (a : Alignment) : Prop :=
  length (seq_a a) = length (adaptor_a a).

(** The aligner returns alignments only. *)
Definition aligner_ok (aligner : str -> str -> list Alignment) : Prop :=
  forall s p a, In a (aligner s p) -> aligned a.

(** The regions read off the answer of the aligner (lines 68-74). *)
Definition alignment_regions (aligns : list Alignment) : str * str :=
  match aligns with
  | [] => ([], [])
  | a :: _ =>
      (slice (seq_a a) (Some (start a)) (Some (end_ a)),
       slice (adaptor_a a) (Some (start a)) (Some (end_ a)))
  end.

(** What removal leaves of a string read (lines 33-46). *)
Definition removed (s region : str) (right_side : bool) : str :=
  if right_side then slice s None (Some (find s region))
  else slice s (Some (rfind s region + len region)) None.

(** The record written for [rec] once trimmed to [t]. *)
Definition fasta_record (rec : FastqRecord) (t : str) : FastqRecord :=
  {| fq_id := fq_id rec; fq_seq := VStr t; fq_letter_annotations := [] |}.

(** A record whose read holds the adaptor of the tests verbatim. *)
Definition fq_3 : FastqRecord :=
  {| fq_id := lit "read_3";
     fq_seq := VStr t_1_read;
     fq_letter_annotations := [] |}.

(** An answer no aligner should give: rows of different lengths. *)
Definition ragged_aligner (s p : str) : list Alignment :=
  [{| seq_a := lit "GGGG"; adaptor_a := lit "GG"; score := 0;
      start := 0; end_ := 4 |}].

(** An aligner that stops after five columns of the alignment of test
    [t_2]. *)
Definition short_aligner : str -> str -> list Alignment :=
  table_aligner
    [(t_2_read, t_adaptor,
      [{| seq_a := t_2_read;
          adaptor_a := adaptor_a t_2_alignment;
          score := 250;
          start := 3;
          end_ := 8 |}])].

(** What one turn of the loop of [main] adds to the output for [rec]. *)
Definition written_for (record_str : SeqRecord -> str)
  (aligner : str -> str -> list Alignment) (adaptor_seq : str)
  (num_errors : Z) (h : heap) (rec : FastqRecord) : list FastqRecord :=
  match fq_seq rec with
  | VStr s =>
      match run aligner
              (trim_adaptor record_str (VStr s) adaptor_seq num_errors true h)
      with
      | Returns (VStr t, _) =>
          if (0 <? len t) && (len t <? len s) then [fasta_record rec t] else []
      | _ => []
      end
  | VRec _ => []
  end.

(** ** Python strings: facts *)

Lemma startswith_app (s p : str) :
  startswith s p = true <-> exists q, s = p ++ q.
Proof.
  revert s; induction p as [|c p IH]; intros s.
  - split; [intros _; exists s; reflexivity | intros _; destruct s; reflexivity].
  - destruct s as [|d s]; simpl.
    + split; [discriminate | intros [q H]; discriminate].
    + rewrite andb_true_iff, Ascii.eqb_eq, IH. split.
      * intros [-> [q ->]]. exists q; reflexivity.
      * intros [q H]. injection H as -> ->. split; [reflexivity | exists q; reflexivity].
Qed.

Lemma occurs_at_0 (s sub : str) :
  occurs_at s sub 0 <-> startswith s sub = true.
Proof.
  rewrite startswith_app. split.
  - intros (p & q & -> & Hp). destruct p; [|discriminate]. exists q; reflexivity.
  - intros [q ->]. exists [], q. split; reflexivity.
Qed.

Lemma occurs_at_S (c : ascii) (s sub : str) (j : nat) :
  occurs_at (c :: s) sub (S j) <-> occurs_at s sub j.
Proof.
  split.
  - intros (p & q & H & Hp). destruct p as [|d p]; [discriminate|].
    simpl in H. injection H as _ ->. exists p, q. split; [reflexivity|].
    simpl in Hp. lia.
  - intros (p & q & -> & Hp). exists (c :: p), q. split; [reflexivity|].
    simpl. lia.
Qed.

Lemma occurs_at_nil (sub : str) (j : nat) :
  occurs_at [] sub j -> j = 0%nat.
Proof.
  intros (p & q & H & Hp). destruct p; [simpl in Hp; lia | discriminate].
Qed.

Lemma occurs_at_bound (s sub : str) (j : nat) :
  occurs_at s sub j -> (j + length sub <= length s)%nat.
Proof.
  intros (p & q & -> & <-). rewrite !length_app. lia.
Qed.

Lemma find_index_eq (s sub : str) :
  find_index s sub =
  if startswith s sub then Some 0%nat
  else match s with
       | [] => None
       | _ :: s' => option_map S (find_index s' sub)
       end.
Proof. destruct s; reflexivity. Qed.

Lemma find_index_first (s sub : str) (i : nat) :
  find_index s sub = Some i -> first_occurrence s sub i.
Proof.
  revert i; induction s as [|c s IH]; intros i; rewrite find_index_eq.
  - destruct (startswith [] sub) eqn:E; [|discriminate].
    intros [= <-]. split; [apply occurs_at_0; exact E | intros; lia].
  - destruct (startswith (c :: s) sub) eqn:E.
    + intros [= <-]. split; [apply occurs_at_0; exact E | intros; lia].
    + destruct (find_index s sub) as [k|]; [|discriminate].
      intros [= <-]. destruct (IH k eq_refl) as [Ho Hmin]. split.
      * apply occurs_at_S; exact Ho.
      * intros [|j] Hj.
        -- apply occurs_at_0 in Hj. congruence.
        -- apply occurs_at_S in Hj. apply Hmin in Hj. lia.
Qed.

Lemma find_index_none (s sub : str) :
  find_index s sub = None -> ~ substring sub s.
Proof.
  induction s as [|c s IH]; rewrite find_index_eq.
  - destruct (startswith [] sub) eqn:E; [discriminate|].
    intros _ [j Hj]. pose proof (occurs_at_nil _ _ Hj) as ->.
    apply occurs_at_0 in Hj. congruence.
  - destruct (startswith (c :: s) sub) eqn:E; [discriminate|].
    destruct (find_index s sub) as [k|] eqn:F; [discriminate|].
    intros _ [[|j] Hj].
    + apply occurs_at_0 in Hj. congruence.
    + apply occurs_at_S in Hj. apply IH; [reflexivity | exists j; exact Hj].
Qed.

Lemma rfind_index_none (s sub : str) :
  rfind_index s sub = None -> ~ substring sub s.
Proof.
  induction s as [|c s IH]; cbn [rfind_index].
  - destruct (startswith [] sub) eqn:E; [discriminate|].
    intros _ [j Hj]. pose proof (occurs_at_nil _ _ Hj) as ->.
    apply occurs_at_0 in Hj. congruence.
  - destruct (rfind_index s sub) as [k|] eqn:F; [discriminate|].
    destruct (startswith (c :: s) sub) eqn:E; [discriminate|].
    intros _ [[|j] Hj].
    + apply occurs_at_0 in Hj. congruence.
    + apply occurs_at_S in Hj. apply IH; [reflexivity | exists j; exact Hj].
Qed.

Lemma rfind_index_last (s sub : str) (i : nat) :
  rfind_index s sub = Some i -> last_occurrence s sub i.
Proof.
  revert i; induction s as [|c s IH]; intros i; cbn [rfind_index].
  - destruct (startswith [] sub) eqn:E; [|discriminate].
    intros [= <-]. split; [apply occurs_at_0; exact E|].
    intros j Hj. apply occurs_at_nil in Hj. lia.
  - destruct (rfind_index s sub) as [k|] eqn:F.
    + intros [= <-]. destruct (IH k eq_refl) as [Ho Hmax]. split.
      * apply occurs_at_S; exact Ho.
      * intros [|j] Hj; [lia|]. apply occurs_at_S in Hj. apply Hmax in Hj. lia.
    + destruct (startswith (c :: s) sub) eqn:E; [|discriminate].
      intros [= <-]. split; [apply occurs_at_0; exact E|].
      intros [|j] Hj; [lia|]. apply occurs_at_S in Hj.
      exfalso. apply (rfind_index_none _ _ F). exists j; exact Hj.
Qed.

Lemma first_occurrence_unique (s sub : str) (i j : nat) :
  first_occurrence s sub i -> first_occurrence s sub j -> i = j.
Proof.
  intros [Hi Hmi] [Hj Hmj]. apply Hmi in Hj. apply Hmj in Hi. lia.
Qed.

Lemma last_occurrence_unique (s sub : str) (i j : nat) :
  last_occurrence s sub i -> last_occurrence s sub j -> i = j.
Proof.
  intros [Hi Hmi] [Hj Hmj]. apply Hmi in Hj. apply Hmj in Hi. lia.
Qed.

(** [find] returns the first occurrence when there is one. *)
Lemma find_first (s sub : str) (i : nat) :
  first_occurrence s sub i -> find s sub = Z.of_nat i.
Proof.
  intros Hi. unfold find. destruct (find_index s sub) as [k|] eqn:F.
  - apply find_index_first in F. f_equal.
    exact (first_occurrence_unique _ _ _ _ F Hi).
  - exfalso. apply (find_index_none _ _ F). exists i. exact (proj1 Hi).
Qed.

Lemma rfind_last (s sub : str) (i : nat) :
  last_occurrence s sub i -> rfind s sub = Z.of_nat i.
Proof.
  intros Hi. unfold rfind. destruct (rfind_index s sub) as [k|] eqn:F.
  - apply rfind_index_last in F. f_equal.
    exact (last_occurrence_unique _ _ _ _ F Hi).
  - exfalso. apply (rfind_index_none _ _ F). exists i. exact (proj1 Hi).
Qed.

(** A substring has a first occurrence, and [find] is its index. *)
Lemma find_substring (s sub : str) :
  substring sub s ->
  exists i, first_occurrence s sub i /\ find s sub = Z.of_nat i.
Proof.
  intros Hs. destruct (find_index s sub) as [k|] eqn:F.
  - exists k. pose proof (find_index_first _ _ _ F) as Hk.
    split; [exact Hk | apply find_first; exact Hk].
  - exfalso. exact (find_index_none _ _ F Hs).
Qed.

Lemma rfind_substring (s sub : str) :
  substring sub s ->
  exists i, last_occurrence s sub i /\ rfind s sub = Z.of_nat i.
Proof.
  intros Hs. destruct (rfind_index s sub) as [k|] eqn:F.
  - exists k. pose proof (rfind_index_last _ _ _ F) as Hk.
    split; [exact Hk | apply rfind_last; exact Hk].
  - exfalso. exact (rfind_index_none _ _ F Hs).
Qed.

Lemma find_range (s sub : str) :
  -1 <= find s sub /\ (0 <= find s sub -> find s sub + len sub <= len s).
Proof.
  unfold find, len. destruct (find_index s sub) as [k|] eqn:F; [|lia].
  apply find_index_first in F. destruct F as [F _].
  apply occurs_at_bound in F. lia.
Qed.

Lemma rfind_range (s sub : str) :
  -1 <= rfind s sub /\ (0 <= rfind s sub -> rfind s sub + len sub <= len s).
Proof.
  unfold rfind, len. destruct (rfind_index s sub) as [k|] eqn:F; [|lia].
  apply rfind_index_last in F. destruct F as [F _].
  apply occurs_at_bound in F. lia.
Qed.

Lemma find_absent (s sub : str) :
  ~ substring sub s <-> find s sub = -1.
Proof.
  unfold find. destruct (find_index s sub) as [k|] eqn:F.
  - split; [|lia]. intros H. exfalso. apply H. exists k.
    exact (proj1 (find_index_first _ _ _ F)).
  - split; [reflexivity|]. intros _. exact (find_index_none _ _ F).
Qed.

Lemma rfind_absent (s sub : str) :
  ~ substring sub s <-> rfind s sub = -1.
Proof.
  unfold rfind. destruct (rfind_index s sub) as [k|] eqn:F.
  - split; [|lia]. intros H. exfalso. apply H. exists k.
    exact (proj1 (rfind_index_last _ _ _ F)).
  - split; [reflexivity|]. intros _. exact (rfind_index_none _ _ F).
Qed.

Lemma find_empty (s : str) : find s [] = 0.
Proof.
  apply (find_first s [] 0). split; [|intros; lia].
  apply occurs_at_0. destruct s; reflexivity.
Qed.

Lemma rfind_empty (s : str) : rfind s [] = len s.
Proof.
  apply (rfind_last s [] (length s)). split.
  - exists s, []. split; [symmetry; apply app_nil_r | reflexivity].
  - intros j Hj. apply occurs_at_bound in Hj. lia.
Qed.

(** ** Slices *)

Lemma len_nonneg {A : Type} (s : list A) : 0 <= len s.
Proof. unfold len. lia. Qed.

Lemma len_app {A : Type} (s t : list A) : len (s ++ t) = len s + len t.
Proof. unfold len. rewrite length_app. lia. Qed.

Lemma slice_bound_range (n i : Z) :
  0 <= n -> 0 <= slice_bound n i <= n.
Proof.
  intros Hn. unfold slice_bound. destruct (i <? 0) eqn:E.
  - apply Z.ltb_lt in E. lia.
  - apply Z.ltb_ge in E. lia.
Qed.

Lemma slice_bound_nonneg (n i : Z) :
  0 <= i -> slice_bound n i = Z.min i n.
Proof.
  intros Hi. unfold slice_bound. destruct (i <? 0) eqn:E; [|reflexivity].
  apply Z.ltb_lt in E. lia.
Qed.

Lemma slice_to {A : Type} (s : list A) (hi : Z) :
  slice s None (Some hi) = firstn (Z.to_nat (slice_bound (len s) hi)) s.
Proof.
  unfold slice. rewrite Z.sub_0_r. reflexivity.
Qed.

Lemma slice_from {A : Type} (s : list A) (lo : Z) :
  slice s (Some lo) None = skipn (Z.to_nat (slice_bound (len s) lo)) s.
Proof.
  unfold slice. apply firstn_all2. rewrite length_skipn.
  pose proof (slice_bound_range (len s) lo (len_nonneg s)).
  unfold len in *. lia.
Qed.

Lemma slice_to_nat {A : Type} (s : list A) (i : nat) :
  (i <= length s)%nat -> slice s None (Some (Z.of_nat i)) = firstn i s.
Proof.
  intros H. rewrite slice_to, slice_bound_nonneg by lia.
  unfold len. rewrite Z.min_l by lia. rewrite Nat2Z.id. reflexivity.
Qed.

Lemma slice_from_nat {A : Type} (s : list A) (i : nat) :
  (i <= length s)%nat -> slice s (Some (Z.of_nat i)) None = skipn i s.
Proof.
  intros H. rewrite slice_from, slice_bound_nonneg by lia.
  unfold len. rewrite Z.min_l by lia. rewrite Nat2Z.id. reflexivity.
Qed.

Lemma slice_to_prefix (s : str) (hi : Z) : is_prefix (slice s None (Some hi)) s.
Proof.
  rewrite slice_to. eexists. symmetry. apply firstn_skipn.
Qed.

Lemma slice_from_suffix (s : str) (lo : Z) : is_suffix (slice s (Some lo) None) s.
Proof.
  rewrite slice_from. eexists. symmetry. apply firstn_skipn.
Qed.

(** A slice is a contiguous part of the string. *)
Lemma slice_part {A : Type} (s : list A) (lo hi : option Z) :
  exists a b, s = a ++ slice s lo hi ++ b.
Proof.
  unfold slice.
  match goal with
  | |- context [firstn ?k (skipn ?i s)] =>
      exists (firstn i s), (skipn k (skipn i s));
      rewrite (firstn_skipn k (skipn i s)); symmetry; apply firstn_skipn
  end.
Qed.

(** Slices of equally long strings at the same bounds are equally long. *)
Lemma slice_length_eq {A B : Type} (s : list A) (t : list B) (lo hi : option Z) :
  length s = length t -> length (slice s lo hi) = length (slice t lo hi).
Proof.
  intros H. unfold slice, len. rewrite !length_firstn, !length_skipn, H.
  reflexivity.
Qed.

Lemma slice_app_to {A : Type} (p r : list A) :
  slice (p ++ r) None (Some (len p)) = p.
Proof.
  rewrite slice_to, slice_bound_nonneg by apply len_nonneg.
  rewrite len_app. pose proof (len_nonneg r).
  rewrite Z.min_l by lia. unfold len. rewrite Nat2Z.id.
  rewrite firstn_app, firstn_all, Nat.sub_diag. simpl. apply app_nil_r.
Qed.

Lemma slice_app_from {A : Type} (p r : list A) :
  slice (p ++ r) (Some (len p)) None = r.
Proof.
  rewrite slice_from, slice_bound_nonneg by apply len_nonneg.
  rewrite len_app. pose proof (len_nonneg r).
  rewrite Z.min_l by lia. unfold len. rewrite Nat2Z.id.
  rewrite skipn_app, skipn_all, Nat.sub_diag. reflexivity.
Qed.

Lemma slice_app_mid {A : Type} (p sub q : list A) :
  slice (p ++ sub ++ q) (Some (len p)) (Some (len p + len sub)) = sub.
Proof.
  pose proof (len_nonneg p). pose proof (len_nonneg sub).
  pose proof (len_nonneg q).
  unfold slice. rewrite !slice_bound_nonneg by lia.
  rewrite !len_app. rewrite !Z.min_l by lia.
  replace (len p + len sub - len p) with (len sub) by lia.
  unfold len. rewrite !Nat2Z.id.
  rewrite skipn_app, skipn_all, Nat.sub_diag. simpl.
  rewrite firstn_app, firstn_all, Nat.sub_diag. simpl. apply app_nil_r.
Qed.

(** ** Removing the gap marker *)

Lemma replace_app (s t : str) (c : ascii) (new : str) :
  replace (s ++ t) c new = replace s c new ++ replace t c new.
Proof. unfold replace. apply flat_map_app. Qed.

Lemma replace_filter (s : str) (c : ascii) :
  replace s c [] = filter (fun x => negb (Ascii.eqb x c)) s.
Proof.
  induction s as [|x s IH]; [reflexivity|].
  unfold replace in *. simpl. rewrite IH.
  destruct (Ascii.eqb x c); reflexivity.
Qed.

Lemma replace_gap_free (s : str) :
  gap_free s -> replace s gap_char [] = s.
Proof.
  unfold gap_free. induction s as [|x s IH]; intros H; [reflexivity|].
  unfold replace in *. simpl.
  destruct (Ascii.eqb x gap_char) eqn:E.
  - apply Ascii.eqb_eq in E. exfalso. apply H. left. exact E.
  - simpl. f_equal. apply IH. intros Hin. apply H. right. exact Hin.
Qed.

Lemma gap_free_app (s t : str) :
  gap_free (s ++ t) <-> gap_free s /\ gap_free t.
Proof.
  unfold gap_free. rewrite in_app_iff. tauto.
Qed.

(** ** The match count *)

Lemma agreeing_range (s a : str) : 0 <= agreeing s a <= len s.
Proof.
  unfold agreeing, len. split; [lia|].
  pose proof (filter_length_le (fun sa : ascii * ascii => Ascii.eqb (fst sa) (snd sa))
                (combine s a)) as H.
  rewrite length_combine in H. lia.
Qed.

Lemma agreeing_self (s : str) : agreeing s s = len s.
Proof.
  unfold agreeing, len. induction s as [|x s IH]; [reflexivity|].
  cbn [combine filter fst snd]. rewrite Ascii.eqb_refl. cbn [length]. lia.
Qed.

Lemma agreeing_cons (x y : ascii) (s a : str) :
  agreeing (x :: s) (y :: a) = (if Ascii.eqb x y then 1 else 0) + agreeing s a.
Proof.
  unfold agreeing, len. cbn [combine filter fst snd].
  destruct (Ascii.eqb x y); cbn [length]; lia.
Qed.

Lemma skipn_nth_error {A : Type} (l : list A) (i : nat) (a : A) :
  nth_error l i = Some a -> skipn i l = a :: skipn (S i) l.
Proof.
  revert i; induction l as [|x l IH]; intros [|i]; simpl; try discriminate.
  - intros [= ->]. reflexivity.
  - intros H. apply IH in H. exact H.
Qed.

Lemma sum_matches_from (adapt_region seq_region : str) (i : nat) :
  (i + length seq_region <= length adapt_region)%nat ->
  sum_matches adapt_region (enumerate_from i seq_region)
  = Some (agreeing seq_region (skipn i adapt_region)).
Proof.
  revert i; induction seq_region as [|x s IH]; intros i H; [reflexivity|].
  simpl in H. cbn [enumerate_from sum_matches].
  destruct (nth_error adapt_region i) as [a|] eqn:E.
  - rewrite IH by lia. rewrite (skipn_nth_error _ _ _ E), agreeing_cons.
    reflexivity.
  - apply nth_error_None in E. lia.
Qed.

(** The loop raises exactly when the read-side region is the longer one. *)
Lemma sum_matches_overrun (adapt_region seq_region : str) (i : nat) :
  seq_region <> [] ->
  (length adapt_region < i + length seq_region)%nat ->
  sum_matches adapt_region (enumerate_from i seq_region) = None.
Proof.
  revert i; induction seq_region as [|x s IH]; intros i Hne H;
    [congruence|].
  simpl in H. cbn [enumerate_from sum_matches].
  destruct (nth_error adapt_region i) as [a|] eqn:E; [|reflexivity].
  assert (i < length adapt_region)%nat
    by (apply nth_error_Some; congruence).
  rewrite IH; [reflexivity | | lia].
  intros ->. simpl in H. lia.
Qed.

Lemma sum_matches_enumerate (adapt_region seq_region : str) :
  (length seq_region <= length adapt_region)%nat ->
  sum_matches adapt_region (enumerate seq_region)
  = Some (agreeing seq_region adapt_region).
Proof.
  intros H. unfold enumerate. rewrite sum_matches_from by lia. reflexivity.
Qed.

(** [adapt_region[i]] raises exactly when the read-side region is the
    longer of the two; a longer adaptor-side region goes unnoticed. *)
Lemma sum_matches_index_error (adapt_region seq_region : str) :
  sum_matches adapt_region (enumerate seq_region) = None
  <-> (length adapt_region < length seq_region)%nat.
Proof.
  split.
  - intros H. destruct (Nat.lt_ge_cases (length adapt_region) (length seq_region))
      as [Hlt | Hge]; [exact Hlt|].
    rewrite sum_matches_enumerate in H by exact Hge. discriminate.
  - intros H. apply sum_matches_overrun; [|exact H].
    intros ->. simpl in H. lia.
Qed.

Lemma matches_range (adapt_region seq_region : str) (m : Z) :
  sum_matches adapt_region (enumerate seq_region) = Some m ->
  0 <= m <= len seq_region.
Proof.
  intros H.
  destruct (Nat.lt_ge_cases (length adapt_region) (length seq_region))
    as [Hlt | Hge].
  - apply sum_matches_index_error in Hlt. congruence.
  - rewrite sum_matches_enumerate in H by exact Hge. injection H as <-.
    apply agreeing_range.
Qed.

Lemma combine_beyond {A B : Type} (s : list A) (a beyond : list B) :
  (length s <= length a)%nat -> combine s (a ++ beyond) = combine s a.
Proof.
  revert a; induction s as [|x s IH]; intros [|y a] H; simpl in *;
    try reflexivity; try lia.
  f_equal. apply IH. lia.
Qed.

Lemma agreeing_beyond (s a beyond : str) :
  (length s <= length a)%nat -> agreeing s (a ++ beyond) = agreeing s a.
Proof.
  intros H. unfold agreeing. rewrite combine_beyond by exact H. reflexivity.
Qed.

Lemma agreeing_differ (x y : ascii) : x <> y -> agreeing [x] [y] = 0.
Proof.
  intros H. unfold agreeing. cbn [combine filter fst snd].
  destruct (Ascii.eqb x y) eqn:E; [|reflexivity].
  apply Ascii.eqb_eq in E. contradiction.
Qed.

Lemma firstn_whole {A : Type} (s : list A) (k : nat) :
  firstn k s = s <-> (length s <= k)%nat.
Proof.
  split; [|apply firstn_all2].
  intros H. apply (f_equal (@length A)) in H. rewrite length_firstn in H. lia.
Qed.

Lemma skipn_whole {A : Type} (s : list A) (k : nat) :
  skipn k s = s <-> k = 0%nat \/ s = [].
Proof.
  split.
  - intros H. apply (f_equal (@length A)) in H. rewrite length_skipn in H.
    destruct s; [right; reflexivity | left; cbn [length] in H; lia].
  - intros [-> | ->]; [reflexivity | apply skipn_nil].
Qed.

(** Removing the empty literal leaves nothing, on either side. *)
Lemma removed_empty (s : str) (right_side : bool) :
  removed s [] right_side = [].
Proof.
  unfold removed. destruct right_side.
  - rewrite find_empty. apply (slice_to_nat s 0). lia.
  - rewrite rfind_empty, Z.add_0_r. unfold len.
    rewrite slice_from_nat by lia. apply skipn_all.
Qed.

(** When removal gives back the whole read. *)
Lemma removed_whole (s region : str) (right_side : bool) :
  removed s region right_side = s <->
  s = [] \/ (right_side = false /\ length region = 1%nat /\ ~ substring region s).
Proof.
  pose proof (find_range s region) as [Hf1 Hf2].
  pose proof (rfind_range s region) as [Hr1 Hr2].
  pose proof (len_nonneg region) as Hreg.
  assert (Hnil : s = [] <-> len s = 0).
  { unfold len. destruct s; simpl; split; intros; try reflexivity;
      try discriminate; lia. }
  unfold removed. destruct right_side; cbv iota.
  - rewrite slice_to. etransitivity; [apply firstn_whole|].
    pose proof (slice_bound_range (len s) (find s region) (len_nonneg s)).
    split.
    + intros H0. left. apply Hnil.
      unfold slice_bound in *. unfold len in *.
      destruct (find s region <? 0) eqn:E.
      * apply Z.ltb_lt in E. lia.
      * apply Z.ltb_ge in E.
        destruct (Z.eq_dec (Z.of_nat (length region)) 0) as [Hz|Hz].
        -- assert (region = []) as -> by (destruct region; [reflexivity | simpl in Hz; lia]).
           rewrite find_empty in *. lia.
        -- lia.
    + intros [-> | (Hx & _)]; [simpl; lia | discriminate].
  - rewrite slice_from. etransitivity; [apply skipn_whole|].
    pose proof (slice_bound_range (len s) (rfind s region + len region)
                  (len_nonneg s)).
    rewrite rfind_absent. split.
    + intros [H0 | ->]; [|left; reflexivity].
      unfold slice_bound in *.
      destruct (rfind s region + len region <? 0) eqn:E.
      * apply Z.ltb_lt in E.
        assert (region = []) as ->
          by (destruct region; [reflexivity | unfold len in *; simpl in *; lia]).
        rewrite rfind_empty in *. pose proof (len_nonneg s). lia.
      * apply Z.ltb_ge in E.
        destruct (Z.eq_dec (len s) 0) as [Hz|Hz]; [left; apply Hnil; exact Hz|].
        right. split; [reflexivity|].
        destruct (Z.eq_dec (len region) 0) as [Hz'|Hz'].
        -- assert (region = []) as ->
             by (destruct region; [reflexivity | unfold len in *; simpl in *; lia]).
           rewrite rfind_empty in *. lia.
        -- unfold len in *. lia.
    + intros [-> | (_ & Hlen & Habs)]; [right; reflexivity|].
      left. unfold len. rewrite Habs, Hlen. change (-1 + Z.of_nat 1) with 0.
      rewrite slice_bound_nonneg by lia. rewrite Z.min_l by lia. reflexivity.
Qed.

Lemma slice_len {A : Type} (s : list A) (lo hi : Z) :
  0 <= lo <= hi -> hi <= len s ->
  len (slice s (Some lo) (Some hi)) = hi - lo.
Proof.
  intros H1 H2. unfold slice. rewrite !slice_bound_nonneg by lia.
  rewrite !Z.min_l by lia. unfold len in *.
  rewrite length_firstn, length_skipn. lia.
Qed.

Lemma prefix_find (t s : str) : is_prefix t s -> find s t = 0.
Proof.
  intros Hp. apply (find_first s t 0). split; [|intros; lia].
  apply occurs_at_0, startswith_app. exact Hp.
Qed.

Lemma suffix_rfind (t s : str) :
  is_suffix t s -> rfind s t = len s - len t.
Proof.
  intros [p ->]. rewrite len_app.
  replace (len p + len t - len t) with (Z.of_nat (length p)) by (unfold len; lia).
  apply rfind_last. split.
  - exists p, []. split; [rewrite app_nil_r; reflexivity | reflexivity].
  - intros j Hj. apply occurs_at_bound in Hj. rewrite length_app in Hj. lia.
Qed.

Lemma prefix_len (t s : str) : is_prefix t s -> len t <= len s.
Proof. intros [q ->]. rewrite len_app. pose proof (len_nonneg q). lia. Qed.

Lemma suffix_len (t s : str) : is_suffix t s -> len t <= len s.
Proof. intros [q ->]. rewrite len_app. pose proof (len_nonneg q). lia. Qed.

Lemma removed_prefix_suffix (s region : str) (right_side : bool) :
  if right_side then is_prefix (removed s region true) s
  else is_suffix (removed s region false) s.
Proof.
  destruct right_side; [apply slice_to_prefix | apply slice_from_suffix].
Qed.

Lemma substring_gap_free (sub s : str) :
  substring sub s -> gap_free s -> gap_free sub.
Proof.
  intros (i & p & q & -> & _) H.
  apply gap_free_app in H. destruct H as [_ H].
  apply gap_free_app in H. tauto.
Qed.

(** ** Running programs *)

Lemma run_pbind {A B : Type} (aligner : str -> str -> list Alignment)
  (m : prog A) (f : A -> prog B) :
  run aligner (pbind m f) =
  match run aligner m with
  | Returns a => run aligner (f a)
  | Raises e => Raises e
  end.
Proof.
  induction m as [a|e|s p k IH]; simpl; [reflexivity | reflexivity | apply IH].
Qed.

Lemma run_bind {A B : Type} (aligner : str -> str -> list Alignment)
  (m : M A) (f : A -> M B) (h : heap) :
  run aligner (bind m f h) =
  match run aligner (m h) with
  | Returns (a, h') => run aligner (f a h')
  | Raises e => Raises e
  end.
Proof.
  unfold bind. rewrite run_pbind. destruct (run aligner (m h)) as [[a h']|e];
    reflexivity.
Qed.

Section TrimmerFacts.

Variable record_str : SeqRecord -> str.
Variable aligner : str -> str -> list Alignment.

Lemma remove_adaptor_str (s region : str) (right_side : bool) (h : heap) :
  _remove_adaptor (VStr s) region right_side h
  = Ret (VStr (removed s region right_side), h).
Proof. destruct right_side; reflexivity. Qed.

(** On an exact match both regions are the adaptor, and the aligner is
    not called. *)
Lemma match_regions_exact (s adaptor : str) (h : heap) :
  0 <= find s adaptor ->
  match_regions record_str (VStr s) adaptor h = Ret ((adaptor, adaptor), h).
Proof.
  intros Hpos. unfold match_regions, bind. simpl.
  destruct (find s adaptor >=? 0) eqn:E; [|lia]. simpl.
  unfold find in *. destruct (find_index s adaptor) as [i|] eqn:F; [|lia].
  apply find_index_first in F. destruct F as [(p & q & -> & <-) _].
  fold (len p). rewrite slice_app_mid. reflexivity.
Qed.

Lemma match_regions_fallback (s adaptor : str) (h : heap) :
  find s adaptor < 0 ->
  run aligner (match_regions record_str (VStr s) adaptor h)
  = Returns (alignment_regions (aligner s adaptor), h).
Proof.
  intros Hneg. unfold match_regions, bind. simpl.
  destruct (find s adaptor >=? 0) eqn:E; [lia|]. simpl.
  destruct (aligner s adaptor) as [|a rest]; reflexivity.
Qed.

Lemma trim_by_regions_str (s adaptor : str) (e : Z) (right_side : bool)
  (seq_region adapt_region : str) (h : heap) :
  trim_by_regions (VStr s) adaptor e right_side
    (seq_region, adapt_region) h
  = match sum_matches adapt_region (enumerate seq_region) with
    | None => Raise IndexError
    | Some m =>
        if len adaptor - m >? e then Ret (VStr s, h)
        else Ret (VStr (removed s (replace seq_region gap_char []) right_side), h)
    end.
Proof.
  unfold trim_by_regions, count_matches, bind.
  destruct (sum_matches adapt_region (enumerate seq_region)) as [m|];
    [|reflexivity].
  simpl. destruct (len adaptor - m >? e); [reflexivity|].
  apply remove_adaptor_str.
Qed.

(** The whole of [trim_adaptor] on a string read, from the regions on. *)
Lemma run_trim_adaptor_str (s adaptor : str) (e : Z) (right_side : bool)
  (h : heap) (seq_region adapt_region : str) :
  run aligner (match_regions record_str (VStr s) adaptor h)
  = Returns ((seq_region, adapt_region), h) ->
  run aligner (trim_adaptor record_str (VStr s) adaptor e right_side h)
  = match sum_matches adapt_region (enumerate seq_region) with
    | None => Raises IndexError
    | Some m =>
        if len adaptor - m >? e then Returns (VStr s, h)
        else Returns
               (VStr (removed s (replace seq_region gap_char []) right_side), h)
    end.
Proof.
  intros Hr. unfold trim_adaptor. rewrite run_bind, Hr, trim_by_regions_str.
  destruct (sum_matches adapt_region (enumerate seq_region)) as [m|];
    [|reflexivity].
  destruct (len adaptor - m >? e); reflexivity.
Qed.

(** The regions of a string read always come out, and leave the store
    as it was. *)
Lemma match_regions_str_returns (s adaptor : str) (h : heap) :
  exists seq_region adapt_region,
    run aligner (match_regions record_str (VStr s) adaptor h)
    = Returns ((seq_region, adapt_region), h)
    /\ (0 <= find s adaptor -> seq_region = adaptor /\ adapt_region = adaptor)
    /\ (find s adaptor < 0 ->
        (seq_region, adapt_region) = alignment_regions (aligner s adaptor)).
Proof.
  destruct (Z_lt_le_dec (find s adaptor) 0) as [Hneg|Hpos].
  - destruct (alignment_regions (aligner s adaptor)) as [sr ar] eqn:R.
    exists sr, ar. rewrite match_regions_fallback, R by exact Hneg.
    split; [reflexivity|]. split; [lia | reflexivity].
  - exists adaptor, adaptor. rewrite match_regions_exact by exact Hpos.
    split; [reflexivity|]. split; [auto | lia].
Qed.

Lemma sum_matches_self (s : str) :
  sum_matches s (enumerate s) = Some (len s).
Proof.
  rewrite sum_matches_enumerate by lia. rewrite agreeing_self. reflexivity.
Qed.

(** On an exact match the count is the whole adaptor: no error. *)
Lemma trim_adaptor_exact (s adaptor : str) (e : Z) (right_side : bool)
  (h : heap) :
  0 <= find s adaptor ->
  trim_adaptor record_str (VStr s) adaptor e right_side h
  = if 0 >? e then Ret (VStr s, h)
    else Ret (VStr (removed s (replace adaptor gap_char []) right_side), h).
Proof.
  intros Hpos. unfold trim_adaptor, bind.
  rewrite match_regions_exact by exact Hpos. cbn [pbind fst snd].
  rewrite trim_by_regions_str, sum_matches_self, Z.sub_diag. reflexivity.
Qed.

(** C1 (amended): for every string read [R] (a [str] or a [Bio.Seq]),
    every adaptor [A] that occurs in [R] as an exact contiguous substring
    and holds no gap marker, and every error tolerance [e >= 0],
    [trim_adaptor R A e] with [right_side=True] returns exactly the prefix
    of [R] before the leftmost occurrence of [A], and does so without
    calling the aligner. *)
Theorem trim_adaptor_exact_right (R A : str) (e : Z) (h : heap) :
  substring A R -> gap_free A -> 0 <= e ->
  exists i,
    first_occurrence R A i
    /\ trim_adaptor record_str (VStr R) A e true h = Ret (VStr (firstn i R), h)
    /\ no_alignment_call (trim_adaptor record_str (VStr R) A e true h).
Proof.
  intros Hsub Hgap He.
  destruct (find_substring R A Hsub) as (i & Hfirst & Hfind).
  assert (Heq : trim_adaptor record_str (VStr R) A e true h
                = Ret (VStr (firstn i R), h)).
  { rewrite trim_adaptor_exact by lia.
    destruct (0 >? e) eqn:E; [lia|].
    rewrite replace_gap_free by exact Hgap.
    unfold removed. rewrite Hfind, slice_to_nat; [reflexivity|].
    destruct Hfirst as [Ho _]. apply occurs_at_bound in Ho. lia. }
  exists i. split; [exact Hfirst|]. split; [exact Heq|].
  rewrite Heq. exact I.
Qed.


(** C2 (amended): let [errors = len(adaptor) - matches], [matches] being
    the count over the matched regions.  When [errors > num_errors] the
    original sequence is returned unmodified, on either side; when
    [errors <= num_errors], equality included, trimming proceeds and the
    result is what removal leaves.  For a non-empty read, on the right
    side or with the gap-stripped region occurring in the read, the input
    is returned unchanged if and only if [errors > num_errors]. *)
Theorem trim_adaptor_threshold (s adaptor : str) (num_errors : Z)
  (right_side : bool) (h : heap) (seq_region adapt_region : str)
  (matches : Z) :
  run aligner (match_regions record_str (VStr s) adaptor h)
  = Returns ((seq_region, adapt_region), h) ->
  sum_matches adapt_region (enumerate seq_region) = Some matches ->
  let errors := len adaptor - matches in
  let region := replace seq_region gap_char [] in
  let result :=
    run aligner (trim_adaptor record_str (VStr s) adaptor num_errors right_side h) in
  (errors > num_errors -> result = Returns (VStr s, h))
  /\ (errors <= num_errors ->
      result = Returns (VStr (removed s region right_side), h))
  /\ (errors = num_errors ->
      result = Returns (VStr (removed s region right_side), h))
  /\ (s <> [] ->
      right_side = true \/ substring region s ->
      (result = Returns (VStr s, h) <-> errors > num_errors)).
Proof.
  intros Hr Hm errors region result.
  assert (Hres : result = if errors >? num_errors then Returns (VStr s, h)
                          else Returns (VStr (removed s region right_side), h)).
  { unfold result. rewrite (run_trim_adaptor_str _ _ _ _ _ _ _ Hr), Hm.
    reflexivity. }
  assert (Hle : errors <= num_errors ->
                result = Returns (VStr (removed s region right_side), h)).
  { intros H. rewrite Hres. destruct (errors >? num_errors) eqn:E; [lia|].
    reflexivity. }
  split; [|split; [exact Hle | split; [intros H; apply Hle; lia|]]].
  - intros H. rewrite Hres. destruct (errors >? num_errors) eqn:E; [|lia].
    reflexivity.
  - intros Hne Hside. rewrite Hres. destruct (errors >? num_errors) eqn:E.
    + split; [intros _; lia | reflexivity].
    + split; [|lia]. intros [= H]. exfalso.
      apply removed_whole in H.
      destruct H as [H | (Hl & _ & Habs)]; [contradiction|].
      destruct Hside as [Hs | Hs]; [congruence | contradiction].
Qed.

(** C3 (amended): if the adaptor has no exact occurrence in the read and
    the aligner returns no alignment, both match regions are taken as
    empty, the error count equals [len(adaptor)], and for
    [num_errors < len(adaptor)] the original sequence is returned
    unchanged, at full length. *)
Theorem trim_adaptor_no_alignment (s adaptor : str) (num_errors : Z)
  (right_side : bool) (h : heap) :
  ~ substring adaptor s ->
  aligner s adaptor = [] ->
  run aligner (match_regions record_str (VStr s) adaptor h)
  = Returns (([], []), h)
  /\ (exists matches,
        sum_matches [] (enumerate []) = Some matches
        /\ len adaptor - matches = len adaptor)
  /\ (num_errors < len adaptor ->
      run aligner (trim_adaptor record_str (VStr s) adaptor num_errors right_side h)
      = Returns (VStr s, h)).
Proof.
  intros Habs Hal.
  assert (Hr : run aligner (match_regions record_str (VStr s) adaptor h)
               = Returns (([], []), h)).
  { apply find_absent in Habs. rewrite match_regions_fallback by lia.
    rewrite Hal. reflexivity. }
  split; [exact Hr|]. split; [exists 0; split; [reflexivity | lia]|].
  rewrite (run_trim_adaptor_str _ _ _ _ _ _ _ Hr).
  cbn [enumerate enumerate_from sum_matches]. rewrite Z.sub_0_r.
  intros H. destruct (len adaptor >? num_errors) eqn:E; [reflexivity | lia].
Qed.

(** The two regions have one length whenever the aligner returns
    alignments. *)
Lemma regions_length (s adaptor : str) (h : heap) :
  aligner_ok aligner ->
  exists seq_region adapt_region,
    run aligner (match_regions record_str (VStr s) adaptor h)
    = Returns ((seq_region, adapt_region), h)
    /\ length seq_region = length adapt_region.
Proof.
  intros Hok.
  destruct (match_regions_str_returns s adaptor h)
    as (sr & ar & Hr & Hexact & Hfall).
  exists sr, ar. split; [exact Hr|].
  destruct (Z_lt_le_dec (find s adaptor) 0) as [Hneg|Hpos].
  - specialize (Hfall Hneg). unfold alignment_regions in Hfall.
    destruct (aligner s adaptor) as [|a rest] eqn:Ha.
    + injection Hfall as -> ->. reflexivity.
    + injection Hfall as -> ->. apply slice_length_eq.
      apply (Hok s adaptor a). rewrite Ha. left. reflexivity.
  - destruct (Hexact Hpos) as [-> ->]. reflexivity.
Qed.

(** X15: on a string read, in each of the three branches (exact match,
    alignment, no alignment) and with an aligner that returns alignments
    whose two rows have one length, the read-side and the adaptor-side
    region have equal length, so the match count, which runs over the
    read-side region and indexes the adaptor-side region at the same
    position, never indexes out of bounds; it counts the positions holding
    the same symbol (a gap marker against a real symbol counts as a
    mismatch, and vice versa), and whatever lies beyond the read-side
    region's length is not compared. *)
Theorem regions_same_length (s adaptor : str) (h : heap) :
  aligner_ok aligner ->
  exists seq_region adapt_region,
    run aligner (match_regions record_str (VStr s) adaptor h)
    = Returns ((seq_region, adapt_region), h)
    /\ length seq_region = length adapt_region
    /\ sum_matches adapt_region (enumerate seq_region)
       = Some (agreeing seq_region adapt_region)
    /\ (forall beyond,
          sum_matches (adapt_region ++ beyond) (enumerate seq_region)
          = Some (agreeing seq_region adapt_region))
    /\ (forall x, x <> gap_char ->
          agreeing [gap_char] [x] = 0 /\ agreeing [x] [gap_char] = 0).
Proof.
  intros Hok. destruct (regions_length s adaptor h Hok) as (sr & ar & Hr & Hlen).
  exists sr, ar. split; [exact Hr|]. split; [exact Hlen|].
  split; [apply sum_matches_enumerate; lia|]. split.
  - intros beyond. rewrite sum_matches_enumerate
      by (rewrite length_app; lia).
    rewrite agreeing_beyond by lia. reflexivity.
  - intros x Hx. split; apply agreeing_differ; congruence.
Qed.

(** The gap-stripped read-side region occurs in a read that holds no gap
    marker, the read row of every alignment being the read with gap
    markers inserted. *)
Lemma stripped_region_occurs (s adaptor : str) (h : heap)
  (seq_region adapt_region : str) :
  gap_free s ->
  (forall a, In a (aligner s adaptor) -> replace (seq_a a) gap_char [] = s) ->
  run aligner (match_regions record_str (VStr s) adaptor h)
  = Returns ((seq_region, adapt_region), h) ->
  substring (replace seq_region gap_char []) s.
Proof.
  intros Hgap Hrow Hr.
  destruct (match_regions_str_returns s adaptor h)
    as (sr' & ar' & Hr' & Hexact & Hfall).
  rewrite Hr in Hr'. injection Hr' as <- <-.
  destruct (Z_lt_le_dec (find s adaptor) 0) as [Hneg|Hpos].
  - specialize (Hfall Hneg). unfold alignment_regions in Hfall.
    destruct (aligner s adaptor) as [|a rest] eqn:Ha.
    + injection Hfall as -> _. exists 0%nat, [], s. split; reflexivity.
    + injection Hfall as Hsr _.
      assert (Ha' : replace (seq_a a) gap_char [] = s)
        by (apply Hrow; left; reflexivity).
      destruct (slice_part (seq_a a) (Some (start a)) (Some (end_ a)))
        as (x & y & Hxy).
      rewrite <- Hsr in Hxy. rewrite Hxy, !replace_app in Ha'.
      exists (length (replace x gap_char [])), (replace x gap_char []),
        (replace y gap_char []).
      split; [symmetry; exact Ha' | reflexivity].
  - destruct (Hexact Hpos) as [-> _].
    assert (Hs : substring adaptor s).
    { destruct (find_index s adaptor) as [i|] eqn:F.
      - exists i. exact (proj1 (find_index_first _ _ _ F)).
      - unfold find in Hpos. rewrite F in Hpos. lia. }
    rewrite replace_gap_free by (exact (substring_gap_free _ _ Hs Hgap)).
    exact Hs.
Qed.

(** C5 (amended): whenever trimming of a string read is accepted, removal
    takes the read-side matched region with the gap markers stripped as a
    literal substring and looks it up with [find] (right side) or [rfind]
    (left side).  When that literal occurs in [seq], with [right_side]
    true the result is everything strictly before its first occurrence in
    [seq], and with [right_side] false everything strictly after its last
    occurrence.  The literal does occur in [seq] when [seq] holds no gap
    marker and the read row of the alignment is [seq] with gap markers
    inserted. *)
Theorem removal_first_last (s adaptor : str) (num_errors : Z) (h : heap)
  (seq_region adapt_region : str) (matches : Z) :
  run aligner (match_regions record_str (VStr s) adaptor h)
  = Returns ((seq_region, adapt_region), h) ->
  sum_matches adapt_region (enumerate seq_region) = Some matches ->
  len adaptor - matches <= num_errors ->
  let region := filter (fun c => negb (Ascii.eqb c gap_char)) seq_region in
  (forall right_side,
     run aligner (trim_adaptor record_str (VStr s) adaptor num_errors right_side h)
     = Returns (VStr (removed s region right_side), h))
  /\ (substring region s ->
      (exists p q,
         s = p ++ region ++ q
         /\ first_occurrence s region (length p)
         /\ run aligner (trim_adaptor record_str (VStr s) adaptor num_errors true h)
            = Returns (VStr p, h))
      /\ (exists p q,
            s = p ++ region ++ q
            /\ last_occurrence s region (length p)
            /\ run aligner
                 (trim_adaptor record_str (VStr s) adaptor num_errors false h)
               = Returns (VStr q, h)))
  /\ (gap_free s ->
      (forall a, In a (aligner s adaptor) -> replace (seq_a a) gap_char [] = s) ->
      substring region s).
Proof.
  intros Hr Hm Hacc region.
  assert (Hres : forall side,
    run aligner (trim_adaptor record_str (VStr s) adaptor num_errors side h)
    = Returns (VStr (removed s region side), h)).
  { intros side. rewrite (run_trim_adaptor_str _ _ _ _ _ _ _ Hr), Hm.
    destruct (len adaptor - matches >? num_errors) eqn:E; [lia|].
    rewrite replace_filter. reflexivity. }
  split; [exact Hres|]. split.
  - intros Hsub. split.
    + destruct (find_substring _ _ Hsub) as (i & Hfirst & Hfind).
      destruct Hfirst as [(p & q & Hs & Hp) Hmin].
      exists p, q. split; [exact Hs|].
      split; [rewrite Hp; split; [exists p, q; auto | exact Hmin]|].
      rewrite Hres. unfold removed. rewrite Hfind, <- Hp. fold (len p).
      rewrite Hs at 1. rewrite slice_app_to. reflexivity.
    + destruct (rfind_substring _ _ Hsub) as (i & Hlast & Hfind).
      destruct Hlast as [(p & q & Hs & Hp) Hmax].
      exists p, q. split; [exact Hs|].
      split; [rewrite Hp; split; [exists p, q; auto | exact Hmax]|].
      rewrite Hres. unfold removed. rewrite Hfind, <- Hp. fold (len p).
      rewrite Hs at 1. rewrite app_assoc, <- len_app, slice_app_from.
      reflexivity.
  - intros Hgap Hrow. subst region. rewrite <- replace_filter.
    exact (stripped_region_occurs s adaptor h seq_region adapt_region
             Hgap Hrow Hr).
Qed.

(** Whatever [trim_adaptor] returns for a string read is a string, a
    prefix of the read on the right side and a suffix on the left, and the
    store is as before. *)
Lemma trim_adaptor_str_result (s adaptor : str) (num_errors : Z)
  (right_side : bool) (h : heap) :
  (exists t,
     run aligner (trim_adaptor record_str (VStr s) adaptor num_errors right_side h)
     = Returns (VStr t, h)
     /\ (if right_side then is_prefix t s else is_suffix t s))
  \/ (run aligner (trim_adaptor record_str (VStr s) adaptor num_errors right_side h)
      = Raises IndexError
      /\ ~ aligner_ok aligner).
Proof.
  destruct (match_regions_str_returns s adaptor h)
    as (sr & ar & Hr & Hexact & Hfall).
  rewrite (run_trim_adaptor_str _ _ _ _ _ _ _ Hr).
  destruct (sum_matches ar (enumerate sr)) as [m|] eqn:Hm.
  - left. destruct (len adaptor - m >? num_errors).
    + exists s. split; [reflexivity|].
      destruct right_side; [exists []; symmetry; apply app_nil_r | exists []; reflexivity].
    + eexists. split; [reflexivity|].
      pose proof (removed_prefix_suffix s (replace sr gap_char []) right_side) as H.
      destruct right_side; exact H.
  - right. split; [reflexivity|]. intros Hok.
    destruct (regions_length s adaptor h Hok) as (sr' & ar' & Hr' & Hlen).
    rewrite Hr in Hr'. injection Hr' as <- <-.
    rewrite sum_matches_enumerate in Hm by lia. discriminate.
Qed.

Lemma trim_adaptor_str_returns (s adaptor : str) (num_errors : Z)
  (right_side : bool) (h : heap) :
  aligner_ok aligner ->
  exists t,
    run aligner (trim_adaptor record_str (VStr s) adaptor num_errors right_side h)
    = Returns (VStr t, h)
    /\ (if right_side then is_prefix t s else is_suffix t s).
Proof.
  intros Hok.
  destruct (trim_adaptor_str_result s adaptor num_errors right_side h)
    as [H | [_ H]]; [exact H | contradiction].
Qed.

(** C7 (amended): for every string [seq], adaptor and [num_errors], what
    [trim_adaptor] returns with [right_side=True] is a prefix of [seq] and
    with [right_side=False] a suffix of [seq], hence never longer than the
    input (and it does return when the aligner returns alignments).  The
    gap-stripped read-side region is a contiguous substring of [seq], so
    that [find] and [rfind] locate it, when [seq] holds no gap marker and
    the read row of every alignment is [seq] with gap markers inserted. *)
Theorem trim_adaptor_prefix_suffix (s adaptor : str) (num_errors : Z)
  (h : heap) :
  (forall t h',
     run aligner (trim_adaptor record_str (VStr s) adaptor num_errors true h)
     = Returns (VStr t, h') ->
     is_prefix t s /\ len t <= len s)
  /\ (forall t h',
       run aligner (trim_adaptor record_str (VStr s) adaptor num_errors false h)
       = Returns (VStr t, h') ->
       is_suffix t s /\ len t <= len s)
  /\ (aligner_ok aligner ->
      forall right_side, exists t,
        run aligner
          (trim_adaptor record_str (VStr s) adaptor num_errors right_side h)
        = Returns (VStr t, h))
  /\ (gap_free s ->
      (forall a, In a (aligner s adaptor) -> replace (seq_a a) gap_char [] = s) ->
      forall seq_region adapt_region,
        run aligner (match_regions record_str (VStr s) adaptor h)
        = Returns ((seq_region, adapt_region), h) ->
        let region := replace seq_region gap_char [] in
        substring region s /\ 0 <= find s region /\ 0 <= rfind s region).
Proof.
  split; [|split; [|split]].
  - intros t h' H.
    destruct (trim_adaptor_str_result s adaptor num_errors true h)
      as [(t' & Ht & Hp) | [Hx _]]; [|congruence].
    rewrite Ht in H. injection H as <- _.
    split; [exact Hp | apply prefix_len; exact Hp].
  - intros t h' H.
    destruct (trim_adaptor_str_result s adaptor num_errors false h)
      as [(t' & Ht & Hp) | [Hx _]]; [|congruence].
    rewrite Ht in H. injection H as <- _.
    split; [exact Hp | apply suffix_len; exact Hp].
  - intros Hok side.
    destruct (trim_adaptor_str_returns s adaptor num_errors side h Hok)
      as (t & Ht & _).
    exists t. exact Ht.
  - intros Hgap Hrow sr ar Hr region.
    assert (Hsub : substring region s).
    { destruct (match_regions_str_returns s adaptor h)
        as (sr' & ar' & Hr' & Hexact & Hfall).
      rewrite Hr in Hr'. injection Hr' as <- <-.
      destruct (Z_lt_le_dec (find s adaptor) 0) as [Hneg|Hpos].
      - specialize (Hfall Hneg). unfold alignment_regions in Hfall.
        destruct (aligner s adaptor) as [|a rest] eqn:Ha.
        + injection Hfall as Hsr _. subst region. rewrite Hsr.
          exists 0%nat, [], s. split; reflexivity.
        + injection Hfall as Hsr _.
          assert (Ha' : replace (seq_a a) gap_char [] = s)
            by (apply Hrow; left; reflexivity).
          destruct (slice_part (seq_a a) (Some (start a)) (Some (end_ a)))
            as (x & y & Hxy).
          rewrite <- Hsr in Hxy. rewrite Hxy, !replace_app in Ha'.
          exists (length (replace x gap_char [])), (replace x gap_char []),
            (replace y gap_char []).
          split; [symmetry; exact Ha' | reflexivity].
      - destruct (Hexact Hpos) as [Hsr _].
        assert (Hs : substring adaptor s).
        { destruct (find_index s adaptor) as [i|] eqn:F.
          - exists i. exact (proj1 (find_index_first _ _ _ F)).
          - unfold find in Hpos. rewrite F in Hpos. lia. }
        subst region. rewrite Hsr.
        rewrite replace_gap_free by (exact (substring_gap_free _ _ Hs Hgap)).
        exact Hs. }
    split; [exact Hsub|].
    destruct (find_substring _ _ Hsub) as (i & _ & ->).
    destruct (rfind_substring _ _ Hsub) as (j & _ & ->). lia.
Qed.

(** C6 (amended): on a string read, [trim_adaptor_w_qual] fails fast when
    [len(seq) != len(qual)];
    otherwise it returns [(tseq, tqual)] where [tseq] is what
    [trim_adaptor] returns, [tqual] is the slice of [qual] of length
    [len(tseq)] at the offset given by [find] (right side) or [rfind]
    (left side) of [tseq] in [seq], and [len(tseq) == len(tqual)]. *)
Theorem trim_adaptor_w_qual_spec (s qual adaptor : str) (num_errors : Z)
  (right_side : bool) (h : heap) :
  (len s <> len qual ->
   trim_adaptor_w_qual record_str (VStr s) qual adaptor num_errors right_side h
   = Raise AssertionError)
  /\ (len s = len qual ->
      forall tseq h',
        run aligner
          (trim_adaptor record_str (VStr s) adaptor num_errors right_side h)
        = Returns (VStr tseq, h') ->
        let pos := if right_side then find s tseq else rfind s tseq in
        let tqual := slice qual (Some pos) (Some (pos + len tseq)) in
        run aligner
          (trim_adaptor_w_qual record_str (VStr s) qual adaptor num_errors
             right_side h)
        = Returns ((VStr tseq, tqual), h')
        /\ len tseq = len tqual)
  /\ (len s = len qual ->
      aligner_ok aligner ->
      exists tseq tqual,
        run aligner
          (trim_adaptor record_str (VStr s) adaptor num_errors right_side h)
        = Returns (VStr tseq, h)
        /\ run aligner
             (trim_adaptor_w_qual record_str (VStr s) qual adaptor num_errors
                right_side h)
           = Returns ((VStr tseq, tqual), h)
        /\ len tseq = len tqual).
Proof.
  assert (Hmain : len s = len qual ->
    forall t h',
      run aligner
        (trim_adaptor record_str (VStr s) adaptor num_errors right_side h)
      = Returns (VStr t, h') ->
      let pos := if right_side then find s t else rfind s t in
      let tqual := slice qual (Some pos) (Some (pos + len t)) in
      run aligner
        (trim_adaptor_w_qual record_str (VStr s) qual adaptor num_errors
           right_side h)
      = Returns ((VStr t, tqual), h')
      /\ len t = len tqual).
  { intros Heq t h' Ht pos tqual.
    assert (Hside : if right_side then is_prefix t s else is_suffix t s).
    { destruct (trim_adaptor_str_result s adaptor num_errors right_side h)
        as [(t' & Ht' & Hp) | [Hx _]]; [|congruence].
      rewrite Ht' in Ht. injection Ht as <- _. exact Hp. }
    assert (Hlen : len t = len tqual).
    { subst tqual pos. pose proof (len_nonneg t). destruct right_side.
      - rewrite (prefix_find _ _ Hside). apply prefix_len in Hside.
        rewrite slice_len by lia. lia.
      - rewrite (suffix_rfind _ _ Hside). apply suffix_len in Hside.
        rewrite slice_len by lia. lia. }
    split; [|exact Hlen].
    unfold trim_adaptor_w_qual.
    rewrite run_bind. cbn [py_len ret run].
    rewrite run_bind. rewrite (proj2 (Z.eqb_eq _ _) Heq). cbn [assert ret run].
    rewrite run_bind, Ht.
    rewrite run_bind.
    assert (Hpos : run aligner
              ((if right_side then find_method (VStr s) (VStr t)
                else rfind_method (VStr s) (VStr t)) h')
            = Returns (pos, h'))
      by (subst pos; destruct right_side; reflexivity).
    rewrite Hpos. rewrite run_bind. cbn [py_len ret run].
    rewrite run_bind. fold tqual. rewrite (proj2 (Z.eqb_eq _ _) Hlen).
    reflexivity. }
  split; [|split; [exact Hmain|]].
  - intros Hne. unfold trim_adaptor_w_qual, bind. cbn [py_len ret pbind fst snd].
    destruct (len s =? len qual) eqn:E; [apply Z.eqb_eq in E; contradiction|].
    reflexivity.
  - intros Heq Hok.
    destruct (trim_adaptor_str_returns s adaptor num_errors right_side h Hok)
      as (t & Ht & _).
    destruct (Hmain Heq t h Ht) as [Hrun Hlen].
    eexists t, _. split; [exact Ht|]. split; [exact Hrun | exact Hlen].
Qed.

(** One turn of the loop of [main]: the record is written exactly when
    the trimmed length lies strictly between 0 and the original length. *)
Lemma run_main_body (adaptor_seq : str) (num_errors : Z)
  (out : list FastqRecord) (rec : FastqRecord) (h : heap) (s t : str) :
  fq_seq rec = VStr s ->
  run aligner (trim_adaptor record_str (VStr s) adaptor_seq num_errors true h)
  = Returns (VStr t, h) ->
  run aligner (main_body record_str adaptor_seq num_errors out rec h)
  = Returns (out ++ (if (0 <? len t) && (len t <? len s)
                     then [fasta_record rec t] else []), h).
Proof.
  intros Hs Ht. unfold main_body. rewrite Hs, run_bind, Ht.
  rewrite run_bind. cbn [py_len ret run]. rewrite run_bind. cbn [py_len ret run].
  rewrite Z.gtb_ltb.
  destruct ((0 <? len t) && (len t <? len s)); cbn [ret run].
  - reflexivity.
  - rewrite app_nil_r. reflexivity.
Qed.

Lemma run_main_loop (adaptor_seq : str) (num_errors : Z)
  (records : list FastqRecord) (h : heap) :
  aligner_ok aligner ->
  (forall rec, In rec records -> exists s, fq_seq rec = VStr s) ->
  forall out, exists written,
    run aligner (main_loop record_str adaptor_seq num_errors records out h)
    = Returns (out ++ written, h)
    /\ forall w, In w written <->
         exists rec s t,
           In rec records
           /\ fq_seq rec = VStr s
           /\ run aligner
                (trim_adaptor record_str (VStr s) adaptor_seq num_errors true h)
              = Returns (VStr t, h)
           /\ 0 < len t < len s
           /\ w = fasta_record rec t.
Proof.
  intros Hok. induction records as [|rec rest IH]; intros Hstr out.
  - exists []. split; [cbn [main_loop ret run]; rewrite app_nil_r; reflexivity|].
    intros w. split; [intros [] | intros (rec & _ & _ & [] & _)].
  - destruct (Hstr rec (or_introl eq_refl)) as [s Hs].
    destruct (trim_adaptor_str_returns s adaptor_seq num_errors true h Hok)
      as (t & Ht & _).
    cbn [main_loop]. rewrite run_bind.
    rewrite (run_main_body _ _ _ _ _ _ _ Hs Ht).
    set (b := if (0 <? len t) && (len t <? len s)
              then [fasta_record rec t] else []).
    destruct (IH (fun r Hr => Hstr r (or_intror Hr)) (out ++ b))
      as (written & Hrun & Hw).
    exists (b ++ written). split; [rewrite Hrun, app_assoc; reflexivity|].
    intros w. rewrite in_app_iff, Hw. split.
    + intros [Hb | (rec' & s' & t' & Hin & Hrest)].
      * exists rec, s, t. split; [left; reflexivity|].
        split; [exact Hs|]. split; [exact Ht|]. subst b.
        destruct (0 <? len t) eqn:E1; destruct (len t <? len s) eqn:E2;
          cbn [andb] in Hb; try contradiction.
        destruct Hb as [<- | []].
        apply Z.ltb_lt in E1. apply Z.ltb_lt in E2. split; [lia | reflexivity].
      * exists rec', s', t'. split; [right; exact Hin | exact Hrest].
    + intros (rec' & s' & t' & [<- | Hin] & Hs' & Ht' & Hlt & ->).
      * left. rewrite Hs in Hs'. injection Hs' as <-.
        rewrite Ht in Ht'. injection Ht' as <-. subst b.
        rewrite (proj2 (Z.ltb_lt _ _) (proj1 Hlt)).
        rewrite (proj2 (Z.ltb_lt _ _) (proj2 Hlt)). left. reflexivity.
      * right. exists rec', s', t'. auto.
Qed.

(** C8: for every record the batch driver processes, a FASTA record (the
    identifier with the trimmed sequence, the quality annotations cleared)
    is written to the output if and only if the trimmed length [L]
    satisfies [0 < L < originalLength]; records trimmed to zero length or
    left at their length produce no output record. *)
Theorem main_writes_trimmed (records : list FastqRecord) (adaptor_seq : str)
  (num_errors : Z) (h : heap) :
  aligner_ok aligner ->
  (forall rec, In rec records -> exists s, fq_seq rec = VStr s) ->
  exists out,
    run aligner (main record_str records adaptor_seq num_errors h)
    = Returns (out, h)
    /\ forall w, In w out <->
         exists rec s t,
           In rec records
           /\ fq_seq rec = VStr s
           /\ run aligner
                (trim_adaptor record_str (VStr s) adaptor_seq num_errors true h)
              = Returns (VStr t, h)
           /\ 0 < len t < len s
           /\ w = fasta_record rec t.
Proof.
  intros Hok Hstr. unfold main.
  destruct (run_main_loop adaptor_seq num_errors records h Hok Hstr [])
    as (written & Hrun & Hw).
  exists written. split; [exact Hrun | exact Hw].
Qed.

(** *** Records *)

Lemma deref_some (l : loc) (r : SeqRecord) (h : heap) :
  nth_error h l = Some r -> deref l h = Ret (r, h).
Proof. intros H. unfold deref. rewrite H. reflexivity. Qed.

Lemma nth_error_last (h : heap) (r : SeqRecord) :
  nth_error (h ++ [r]) (length h) = Some r.
Proof.
  rewrite nth_error_app2 by lia. rewrite Nat.sub_diag. reflexivity.
Qed.

Lemma nth_error_grown (h extra : heap) (l : loc) (r : SeqRecord) :
  nth_error h l = Some r -> nth_error (h ++ extra) l = Some r.
Proof.
  intros H. rewrite nth_error_app1; [exact H|].
  apply nth_error_Some. congruence.
Qed.

Lemma py_str_rec (l : loc) (r : SeqRecord) (h : heap) :
  nth_error h l = Some r -> py_str record_str (VRec l) h = Ret (record_str r, h).
Proof.
  intros H. unfold py_str, bind. rewrite (deref_some _ _ _ H). reflexivity.
Qed.

Lemma getslice_rec (l : loc) (r : SeqRecord) (lo hi : option Z) (h : heap) :
  nth_error h l = Some r ->
  getslice (VRec l) lo hi h
  = Ret (VRec (length h), h ++ [with_seq r (slice (rec_seq r) lo hi)]).
Proof.
  intros H. unfold getslice, bind. rewrite (deref_some _ _ _ H). reflexivity.
Qed.

Lemma remove_adaptor_rec (l : loc) (r : SeqRecord) (region : str)
  (right_side : bool) (h : heap) :
  nth_error h l = Some r ->
  _remove_adaptor (VRec l) region right_side h
  = Ret (VRec (length h),
         h ++ [with_seq r (removed (rec_seq r) region right_side)]).
Proof.
  intros H. unfold _remove_adaptor, removed.
  destruct right_side; unfold bind, find_or_seq_find, rfind_or_seq_rfind, bind;
    rewrite (deref_some _ _ _ H); cbn [pbind ret fst snd];
    apply getslice_rec; exact H.
Qed.

Lemma trim_by_regions_rec (l : loc) (r : SeqRecord) (adaptor : str) (e : Z)
  (right_side : bool) (seq_region adapt_region : str) (h : heap) :
  nth_error h l = Some r ->
  trim_by_regions (VRec l) adaptor e right_side (seq_region, adapt_region) h
  = match sum_matches adapt_region (enumerate seq_region) with
    | None => Raise IndexError
    | Some m =>
        if len adaptor - m >? e then Ret (VRec l, h)
        else Ret (VRec (length h),
                  h ++ [with_seq r
                          (removed (rec_seq r)
                             (replace seq_region gap_char []) right_side)])
    end.
Proof.
  intros H. unfold trim_by_regions, count_matches, bind.
  destruct (sum_matches adapt_region (enumerate seq_region)) as [m|];
    [|reflexivity].
  simpl. destruct (len adaptor - m >? e); [reflexivity|].
  apply remove_adaptor_rec. exact H.
Qed.

(** The regions of a record: the store is left as it was or has grown by
    the slice taken on an exact match. *)
Lemma match_regions_rec (l : loc) (r : SeqRecord) (adaptor : str) (h : heap) :
  nth_error h l = Some r ->
  exists regions extra,
    run aligner (match_regions record_str (VRec l) adaptor h)
    = Returns (regions, h ++ extra).
Proof.
  intros H. unfold match_regions, bind. rewrite (py_str_rec _ _ _ H).
  cbn [pbind fst snd].
  destruct (find (record_str r) adaptor >=? 0).
  - rewrite (getslice_rec _ _ _ _ _ H). cbn [pbind fst snd].
    rewrite (py_str_rec _ _ _ (nth_error_last h _)). cbn [pbind fst snd ret run].
    eexists _, [_]. reflexivity.
  - cbn [localms pbind run fst snd].
    destruct (aligner (record_str r) adaptor) as [|a rest]; cbn [ret run];
      eexists _, []; rewrite app_nil_r; reflexivity.
Qed.

Lemma trim_adaptor_dangling (l : loc) (adaptor : str) (e : Z)
  (right_side : bool) (h : heap) :
  nth_error h l = None ->
  trim_adaptor record_str (VRec l) adaptor e right_side h = Raise SystemError.
Proof.
  intros H. unfold trim_adaptor, match_regions, bind, py_str, bind, deref.
  rewrite H. reflexivity.
Qed.

(** What a run of [trim_adaptor] on a record ends in. *)
Lemma run_trim_adaptor_rec (l : loc) (r : SeqRecord) (adaptor : str) (e : Z)
  (right_side : bool) (h : heap) :
  nth_error h l = Some r ->
  exists seq_region adapt_region extra,
    run aligner (match_regions record_str (VRec l) adaptor h)
    = Returns ((seq_region, adapt_region), h ++ extra)
    /\ run aligner (trim_adaptor record_str (VRec l) adaptor e right_side h)
       = match sum_matches adapt_region (enumerate seq_region) with
         | None => Raises IndexError
         | Some m =>
             if len adaptor - m >? e then Returns (VRec l, h ++ extra)
             else Returns
                    (VRec (length (h ++ extra)),
                     (h ++ extra)
                     ++ [with_seq r
                           (removed (rec_seq r)
                              (replace seq_region gap_char []) right_side)])
         end.
Proof.
  intros H. destruct (match_regions_rec l r adaptor h H) as ([sr ar] & extra & Hr).
  exists sr, ar, extra. split; [exact Hr|].
  unfold trim_adaptor. rewrite run_bind, Hr.
  rewrite (trim_by_regions_rec _ _ _ _ _ _ _ _ (nth_error_grown _ extra _ _ H)).
  destruct (sum_matches ar (enumerate sr)) as [m|]; [|reflexivity].
  destruct (len adaptor - m >? e); reflexivity.
Qed.

(** C9 (amended): [trim_adaptor] keeps the richness of its input and
    mutates nothing.  For a plain string the result is a plain string.  For
    a record the result is the input record itself, handed back as it is,
    when the match is rejected ([errors > num_errors]); when the match is
    accepted it is a newly constructed record in which only the sequence
    field differs, being the trimmed sequence (what removal leaves of the
    input's sequence: a prefix on the right side, a suffix on the left),
    with identifier, name and description as in the input.  Every record
    of the store, the input included, is afterwards what it was before. *)
Theorem trim_adaptor_richness (seq : value) (adaptor : str) (num_errors : Z)
  (right_side : bool) (h h' : heap) (v : value) :
  run aligner (trim_adaptor record_str seq adaptor num_errors right_side h)
  = Returns (v, h') ->
  (forall k r, nth_error h k = Some r -> nth_error h' k = Some r)
  /\ match seq with
     | VStr s => exists t, v = VStr t /\ h' = h
     | VRec l =>
         exists r seq_region adapt_region h1 matches,
           nth_error h l = Some r
           /\ run aligner (match_regions record_str (VRec l) adaptor h)
              = Returns ((seq_region, adapt_region), h1)
           /\ sum_matches adapt_region (enumerate seq_region) = Some matches
           /\ (length h <= length h1)%nat
           /\ ((len adaptor - matches > num_errors /\ v = VRec l /\ h' = h1)
               \/ (len adaptor - matches <= num_errors
                   /\ exists t,
                        t = removed (rec_seq r)
                              (replace seq_region gap_char []) right_side
                        /\ (if right_side then is_prefix t (rec_seq r)
                            else is_suffix t (rec_seq r))
                        /\ v = VRec (length h1)
                        /\ h' = h1 ++ [with_seq r t]))
     end.
Proof.
  intros Hrun. destruct seq as [s|l].
  - destruct (trim_adaptor_str_result s adaptor num_errors right_side h)
      as [(t & Ht & _) | [Hx _]]; [|congruence].
    rewrite Ht in Hrun. injection Hrun as <- <-.
    split; [auto | exists t; auto].
  - destruct (nth_error h l) as [r|] eqn:Hl.
    2:{ rewrite (trim_adaptor_dangling _ _ _ _ _ Hl) in Hrun. discriminate. }
    destruct (run_trim_adaptor_rec l r adaptor num_errors right_side h Hl)
      as (sr & ar & extra & Hreg & Hres).
    rewrite Hres in Hrun.
    destruct (sum_matches ar (enumerate sr)) as [m|] eqn:Hm; [|discriminate].
    destruct (len adaptor - m >? num_errors) eqn:E.
    + injection Hrun as <- <-. split.
      * intros k r0 Hk. apply nth_error_grown. exact Hk.
      * exists r, sr, ar, (h ++ extra), m.
        split; [reflexivity|]. split; [exact Hreg|]. split; [exact Hm|].
        split; [rewrite length_app; lia|].
        left. split; [lia | split; reflexivity].
    + injection Hrun as <- <-. split.
      * intros k r0 Hk. rewrite <- app_assoc. apply nth_error_grown. exact Hk.
      * exists r, sr, ar, (h ++ extra), m.
        split; [reflexivity|]. split; [exact Hreg|]. split; [exact Hm|].
        split; [rewrite length_app; lia|].
        right. split; [lia|]. eexists. split; [reflexivity|].
        split; [|split; reflexivity].
        pose proof (removed_prefix_suffix (rec_seq r) (replace sr gap_char [])
                      right_side) as Hp.
        destruct right_side; exact Hp.
Qed.

End TrimmerFacts.

(** ** The model on the inputs of the tests *)

Example t_1_exact :
  run t_2_aligner (trim_adaptor inner_str (VStr t_1_read) t_adaptor 2 true [])
  = Returns (VStr (lit "GGG"), []).
Proof. reflexivity. Qed.

Example t_1_one_error :
  run t_2_aligner (trim_adaptor inner_str (VStr t_2_read) t_adaptor 2 true [])
  = Returns (VStr (lit "GGG"), []).
Proof. reflexivity. Qed.

Example t_2_left_side :
  run t_2_aligner (trim_adaptor inner_str (VStr t_2_read) t_adaptor 2 false [])
  = Returns (VStr (lit "CCC"), []).
Proof. reflexivity. Qed.

Example t_3_repetitive :
  run t_2_aligner
    (trim_adaptor inner_str (VStr t_1_read) (lit "GATCGATC") 2 false [])
  = Returns (VStr (lit "CCC"), []).
Proof. reflexivity. Qed.

Example t_4_record_right :
  run t_2_aligner (trim_adaptor inner_str (VRec 0%nat) t_adaptor 2 true [t_4_record])
  = Returns (VRec 1%nat, [t_4_record; with_seq t_4_record (lit "GGG")]).
Proof. reflexivity. Qed.

Example t_5_qual_right :
  run t_2_aligner
    (trim_adaptor_w_qual inner_str (VStr t_2_read) t_5_qual t_adaptor 2 true [])
  = Returns ((VStr (lit "GGG"), lit "YDV"), []).
Proof. reflexivity. Qed.

Example t_5_qual_left :
  run t_2_aligner
    (trim_adaptor_w_qual inner_str (VStr t_2_read) t_5_qual t_adaptor 2 false [])
  = Returns ((VStr (lit "CCC"), lit "`_O"), []).
Proof. reflexivity. Qed.

Example t_6_no_alignment :
  run no_alignment (trim_adaptor inner_str (VStr t_6_read) t_6_adaptor 2 true [])
  = Returns (VStr t_6_read, []).
Proof. reflexivity. Qed.

(** ** Facts about the concrete aligners *)

Lemma t_2_aligner_ok : aligner_ok t_2_aligner.
Proof.
  intros s p a. unfold t_2_aligner, table_aligner.
  destruct (str_eqb s t_2_read && str_eqb p t_adaptor).
  - intros [<- | []]. reflexivity.
  - intros [].
Qed.

Lemma gap_free_t_2_read : gap_free t_2_read.
Proof.
  unfold gap_free, t_2_read, lit. cbn [list_ascii_of_string In].
  intros H. repeat (destruct H as [H | H]; [discriminate H|]). exact H.
Qed.

(** ** The theorems at concrete inputs *)

Lemma trim_adaptor_exact_right_witness :
  exists i,
    first_occurrence t_1_read t_adaptor i
    /\ trim_adaptor inner_str (VStr t_1_read) t_adaptor 2 true []
       = Ret (VStr (firstn i t_1_read), [])
    /\ no_alignment_call
         (trim_adaptor inner_str (VStr t_1_read) t_adaptor 2 true []).
Proof.
  apply (trim_adaptor_exact_right inner_str t_1_read t_adaptor 2 []).
  - exists 3%nat, (lit "GGG"), (lit "CCC"). split; reflexivity.
  - unfold gap_free, t_adaptor, lit. cbn [list_ascii_of_string In].
    intros H. repeat (destruct H as [H | H]; [discriminate H|]). exact H.
  - lia.
Defined.

(** With the gap marker in the adaptor the exact match is accepted, the
    stripped literal is not found, and the last symbol of the read is cut
    off instead of the adaptor. *)
Lemma exact_match_with_gap_marker :
  substring gapped_read gapped_read
  /\ first_occurrence gapped_read gapped_read 0
  /\ 0 <= 0
  /\ trim_adaptor inner_str (VStr gapped_read) gapped_read 0 true []
     = Ret (VStr (lit "A-"), [])
  /\ lit "A-" <> firstn 0 gapped_read.
Proof.
  assert (H : first_occurrence gapped_read gapped_read 0)
    by (apply find_index_first; reflexivity).
  split; [exists 0%nat; exact (proj1 H)|]. split; [exact H|].
  split; [lia|]. split; [reflexivity | discriminate].
Qed.


Lemma trim_adaptor_threshold_witness :
  run t_2_aligner (trim_adaptor inner_str (VStr t_2_read) t_adaptor 1 true [])
  = Returns (VStr (lit "GGG"), [])
  /\ run t_2_aligner (trim_adaptor inner_str (VStr t_2_read) t_adaptor 0 true [])
     = Returns (VStr t_2_read, []).
Proof.
  split.
  - destruct (trim_adaptor_threshold inner_str t_2_aligner t_2_read t_adaptor
                1 true [] (lit "GATCGTTCGATC") t_adaptor 11 eq_refl eq_refl)
      as (_ & _ & Heq & _).
    exact (Heq eq_refl).
  - destruct (trim_adaptor_threshold inner_str t_2_aligner t_2_read t_adaptor
                0 true [] (lit "GATCGTTCGATC") t_adaptor 11 eq_refl eq_refl)
      as (Hgt & _).
    apply Hgt. vm_compute. reflexivity.
Defined.

(** An empty read with an empty adaptor: no error, trimming proceeds, and
    what it returns is the input, which is empty. *)
Lemma empty_read_returned_without_rejection :
  run no_alignment (match_regions inner_str (VStr []) [] [])
  = Returns (([], []), [])
  /\ sum_matches [] (enumerate []) = Some 0
  /\ ~ (len (@nil ascii) - 0 > 0)
  /\ run no_alignment (trim_adaptor inner_str (VStr []) [] 0 true [])
     = Returns (VStr [], []).
Proof.
  split; [reflexivity|]. split; [reflexivity|]. split; [|reflexivity].
  vm_compute. intros H. discriminate H.
Qed.

Lemma trim_adaptor_no_alignment_witness :
  run no_alignment (trim_adaptor inner_str (VStr t_6_read) t_6_adaptor 2 true [])
  = Returns (VStr t_6_read, []).
Proof.
  assert (Habs : ~ substring t_6_adaptor t_6_read)
    by (apply find_absent; reflexivity).
  destruct (trim_adaptor_no_alignment inner_str no_alignment t_6_read
              t_6_adaptor 2 true [] Habs eq_refl) as (_ & _ & Hlt).
  apply Hlt. vm_compute. reflexivity.
Defined.

(** No exact occurrence, no alignment, and a tolerance as large as the
    adaptor: the whole read is trimmed away. *)
Lemma no_alignment_with_large_tolerance :
  ~ substring t_6_adaptor t_6_read
  /\ no_alignment t_6_read t_6_adaptor = []
  /\ len t_6_adaptor = 14
  /\ run no_alignment
       (trim_adaptor inner_str (VStr t_6_read) t_6_adaptor 14 true [])
     = Returns (VStr [], [])
  /\ t_6_read <> [].
Proof.
  split; [apply find_absent; reflexivity|].
  split; [reflexivity|]. split; [reflexivity|].
  split; [reflexivity | discriminate].
Qed.

Lemma regions_same_length_witness :
  exists seq_region adapt_region,
    run t_2_aligner (match_regions inner_str (VStr t_2_read) t_adaptor [])
    = Returns ((seq_region, adapt_region), [])
    /\ length seq_region = length adapt_region
    /\ sum_matches adapt_region (enumerate seq_region)
       = Some (agreeing seq_region adapt_region)
    /\ (forall beyond,
          sum_matches (adapt_region ++ beyond) (enumerate seq_region)
          = Some (agreeing seq_region adapt_region))
    /\ (forall x, x <> gap_char ->
          agreeing [gap_char] [x] = 0 /\ agreeing [x] [gap_char] = 0).
Proof.
  apply (regions_same_length inner_str t_2_aligner t_2_read t_adaptor []).
  intros s p a. unfold t_2_aligner, table_aligner.
  destruct (str_eqb s t_2_read && str_eqb p t_adaptor).
  - intros [<- | []]. reflexivity.
  - intros [].
Defined.

(** C4: the read-side and the adaptor-side region do not have equal
    length in every execution of [trim_adaptor], and the match count does
    index out of bounds.  For a record read that holds the adaptor
    verbatim, [str(seq)] being the summary of the record, the adaptor is
    found in the text at offset 78; the slice of the record at that offset
    has an empty sequence, and its rendering, 100 symbols long, is
    compared with the 12 symbols of the adaptor: [adapt_region[12]]
    raises [IndexError]. *)
Lemma record_regions_of_unequal_length :
  find (summary_str t_1_record) t_adaptor = 78
  /\ exists seq_region adapt_region h1,
       run no_alignment
         (match_regions summary_str (VRec 0%nat) t_adaptor [t_1_record])
       = Returns ((seq_region, adapt_region), h1)
       /\ length seq_region = 100%nat
       /\ length adapt_region = 12%nat
       /\ sum_matches adapt_region (enumerate seq_region) = None
       /\ run no_alignment
            (trim_adaptor summary_str (VRec 0%nat) t_adaptor 2 true
               [t_1_record])
          = Raises IndexError.
Proof.
  split; [reflexivity|]. eexists _, _, _.
  split; [reflexivity|]. repeat split; reflexivity.
Qed.

(** With the gap marker in the read, trimming is accepted on an exact
    match, the stripped literal occurs nowhere in the read, and what is
    returned is the read without its last symbol (right side) or without
    its first symbol (left side). *)
Lemma accepted_removal_without_occurrence :
  run no_alignment (match_regions inner_str (VStr gapped_read) gapped_read [])
  = Returns ((gapped_read, gapped_read), [])
  /\ sum_matches gapped_read (enumerate gapped_read) = Some 3
  /\ len gapped_read - 3 <= 0
  /\ filter (fun c => negb (Ascii.eqb c gap_char)) gapped_read = lit "AC"
  /\ (forall i, ~ occurs_at gapped_read (lit "AC") i)
  /\ run no_alignment
       (trim_adaptor inner_str (VStr gapped_read) gapped_read 0 true [])
     = Returns (VStr (lit "A-"), [])
  /\ run no_alignment
       (trim_adaptor inner_str (VStr gapped_read) gapped_read 0 false [])
     = Returns (VStr (lit "-C"), []).
Proof.
  split; [reflexivity|]. split; [reflexivity|].
  split; [vm_compute; discriminate|]. split; [reflexivity|].
  split; [|split; reflexivity].
  intros i Hi.
  assert (Habs : ~ substring (lit "AC") gapped_read)
    by (apply find_absent; reflexivity).
  apply Habs. exists i. exact Hi.
Qed.

Lemma removal_first_last_witness :
  let region := lit "GATCGTTCGATC" in
  (exists p q,
     t_2_read = p ++ region ++ q
     /\ first_occurrence t_2_read region (length p)
     /\ run t_2_aligner (trim_adaptor inner_str (VStr t_2_read) t_adaptor 2 true [])
        = Returns (VStr p, []))
  /\ (exists p q,
        t_2_read = p ++ region ++ q
        /\ last_occurrence t_2_read region (length p)
        /\ run t_2_aligner
             (trim_adaptor inner_str (VStr t_2_read) t_adaptor 2 false [])
           = Returns (VStr q, [])).
Proof.
  assert (Hacc : len t_adaptor - 11 <= 2) by (vm_compute; discriminate).
  destruct (removal_first_last inner_str t_2_aligner t_2_read t_adaptor 2 []
              (lit "GATCGTTCGATC") t_adaptor 11 eq_refl eq_refl Hacc)
    as (_ & Hocc & Hinv).
  apply Hocc. apply Hinv.
  - exact gap_free_t_2_read.
  - intros a [<- | []]. reflexivity.
Defined.

Lemma trim_adaptor_w_qual_spec_witness :
  trim_adaptor_w_qual inner_str (VStr t_2_read) (lit "YD") t_adaptor 2 true []
  = Raise AssertionError
  /\ (run t_2_aligner
        (trim_adaptor_w_qual inner_str (VStr t_2_read) t_5_qual t_adaptor 2
           true [])
      = Returns ((VStr (lit "GGG"), lit "YDV"), [])
      /\ len (lit "GGG") = len (lit "YDV"))
  /\ exists tseq tqual,
       run t_2_aligner
         (trim_adaptor inner_str (VStr t_2_read) t_adaptor 2 false [])
       = Returns (VStr tseq, [])
       /\ run t_2_aligner
            (trim_adaptor_w_qual inner_str (VStr t_2_read) t_5_qual t_adaptor
               2 false [])
          = Returns ((VStr tseq, tqual), [])
       /\ len tseq = len tqual.
Proof.
  split; [|split].
  - apply (trim_adaptor_w_qual_spec inner_str t_2_aligner t_2_read (lit "YD")
             t_adaptor 2 true []).
    vm_compute. discriminate.
  - apply (proj1 (proj2 (trim_adaptor_w_qual_spec inner_str t_2_aligner
                           t_2_read t_5_qual t_adaptor 2 true []))
             eq_refl (lit "GGG") [] eq_refl).
  - apply (trim_adaptor_w_qual_spec inner_str t_2_aligner t_2_read t_5_qual
             t_adaptor 2 false []).
    + reflexivity.
    + exact t_2_aligner_ok.
Defined.

(** A record read of the length of [qual]: [trim_adaptor] returns, a new
    record on acceptance and the input on rejection, and then the look-up
    of the result in the record raises [AttributeError]. *)
Lemma quality_trim_of_record_raises :
  len (rec_seq t_4_record) = len t_5_qual
  /\ run t_2_aligner
       (trim_adaptor inner_str (VRec 0%nat) t_adaptor 2 false [t_4_record])
     = Returns (VRec 1%nat, [t_4_record; with_seq t_4_record (lit "CCC")])
  /\ run t_2_aligner
       (trim_adaptor_w_qual inner_str (VRec 0%nat) t_5_qual t_adaptor 2 false
          [t_4_record])
     = Raises AttributeError
  /\ run t_2_aligner
       (trim_adaptor_w_qual inner_str (VRec 0%nat) t_5_qual t_adaptor 0 false
          [t_4_record])
     = Raises AttributeError.
Proof. repeat split; reflexivity. Qed.

Lemma trim_adaptor_prefix_suffix_witness :
  (is_prefix (lit "GGG") t_2_read /\ len (lit "GGG") <= len t_2_read)
  /\ (is_suffix (lit "CCC") t_2_read /\ len (lit "CCC") <= len t_2_read)
  /\ (forall right_side, exists t,
        run t_2_aligner
          (trim_adaptor inner_str (VStr t_2_read) t_adaptor 2 right_side [])
        = Returns (VStr t, []))
  /\ (let region := replace (lit "GATCGTTCGATC") gap_char [] in
      substring region t_2_read
      /\ 0 <= find t_2_read region /\ 0 <= rfind t_2_read region).
Proof.
  destruct (trim_adaptor_prefix_suffix inner_str t_2_aligner t_2_read t_adaptor
              2 []) as (Hright & Hleft & Hret & Hinv).
  split; [exact (Hright (lit "GGG") [] eq_refl)|].
  split; [exact (Hleft (lit "CCC") [] eq_refl)|].
  split; [exact (Hret t_2_aligner_ok)|].
  apply (Hinv gap_free_t_2_read) with (adapt_region := t_adaptor).
  - intros a [<- | []]. reflexivity.
  - reflexivity.
Defined.

(** With the gap marker in the read, the stripped read-side region of an
    exact match is no substring of the read: [find] answers [-1]. *)
Lemma stripped_region_absent :
  run no_alignment (match_regions inner_str (VStr gapped_read) gapped_read [])
  = Returns ((gapped_read, gapped_read), [])
  /\ replace gapped_read gap_char [] = lit "AC"
  /\ ~ substring (lit "AC") gapped_read
  /\ find gapped_read (lit "AC") = -1
  /\ rfind gapped_read (lit "AC") = -1.
Proof.
  split; [reflexivity|]. split; [reflexivity|].
  split; [apply find_absent; reflexivity|].
  split; reflexivity.
Qed.

Lemma main_writes_trimmed_witness :
  exists out,
    run t_2_aligner (main inner_str [fq_1; fq_2] t_adaptor 2 [])
    = Returns (out, [])
    /\ forall w, In w out <->
         exists rec s t,
           In rec [fq_1; fq_2]
           /\ fq_seq rec = VStr s
           /\ run t_2_aligner (trim_adaptor inner_str (VStr s) t_adaptor 2 true [])
              = Returns (VStr t, [])
           /\ 0 < len t < len s
           /\ w = fasta_record rec t.
Proof.
  apply (main_writes_trimmed inner_str t_2_aligner [fq_1; fq_2] t_adaptor 2 []).
  - exact t_2_aligner_ok.
  - intros rec [<- | [<- | []]]; eexists; reflexivity.
Defined.

Example main_on_two_records :
  run t_2_aligner (main inner_str [fq_1; fq_2] t_adaptor 2 [])
  = Returns ([fasta_record fq_1 (lit "GGG")], []).
Proof. reflexivity. Qed.

Lemma trim_adaptor_richness_witness :
  (forall k r, nth_error [t_4_record] k = Some r ->
               nth_error [t_4_record; with_seq t_4_record (lit "GGG")] k = Some r)
  /\ exists r seq_region adapt_region h1 matches,
       nth_error [t_4_record] 0 = Some r
       /\ run t_2_aligner (match_regions inner_str (VRec 0%nat) t_adaptor [t_4_record])
          = Returns ((seq_region, adapt_region), h1)
       /\ sum_matches adapt_region (enumerate seq_region) = Some matches
       /\ (length [t_4_record] <= length h1)%nat
       /\ ((len t_adaptor - matches > 2 /\ VRec 1%nat = VRec 0%nat
            /\ [t_4_record; with_seq t_4_record (lit "GGG")] = h1)
           \/ (len t_adaptor - matches <= 2
               /\ exists t,
                    t = removed (rec_seq r) (replace seq_region gap_char []) true
                    /\ is_prefix t (rec_seq r)
                    /\ VRec 1%nat = VRec (length h1)
                    /\ [t_4_record; with_seq t_4_record (lit "GGG")]
                       = h1 ++ [with_seq r t])).
Proof.
  apply (trim_adaptor_richness inner_str t_2_aligner (VRec 0%nat) t_adaptor 2
           true [t_4_record]
           [t_4_record; with_seq t_4_record (lit "GGG")] (VRec 1%nat)).
  reflexivity.
Defined.

(** A record whose match is rejected comes back as the very object that
    was passed in: location 0 of a store that has not grown. *)
Lemma rejected_record_is_the_input :
  nth_error [t_4_record] 0 = Some t_4_record
  /\ run t_2_aligner
       (trim_adaptor inner_str (VRec 0%nat) t_adaptor 0 true [t_4_record])
     = Returns (VRec 0%nat, [t_4_record]).
Proof. split; reflexivity. Qed.

(** ** Further facts: the exact path on the left side, failed look-ups,
    the match count on regions of unequal length *)

Lemma occurs_at_app_l (t rest sub : str) (k : nat) :
  occurs_at t sub k -> occurs_at (t ++ rest) sub k.
Proof.
  intros (p & q & -> & Hp). exists p, (q ++ rest). split; [|exact Hp].
  rewrite <- !app_assoc. reflexivity.
Qed.

Lemma occurs_at_app_r (pre t sub : str) (k : nat) :
  occurs_at t sub k -> occurs_at (pre ++ t) sub (length pre + k).
Proof.
  intros (p & q & -> & Hp). exists (pre ++ p), q. split.
  - rewrite <- app_assoc. reflexivity.
  - rewrite length_app. lia.
Qed.

Lemma substring_nonempty_absent (region s : str) :
  ~ substring region s -> region <> [].
Proof.
  intros H ->. apply H. exists 0%nat, [], s. split; reflexivity.
Qed.

Lemma removed_right_first (s region : str) (i : nat) :
  first_occurrence s region i -> removed s region true = firstn i s.
Proof.
  intros Hi. unfold removed. rewrite (find_first _ _ _ Hi).
  apply slice_to_nat. destruct Hi as [Ho _]. apply occurs_at_bound in Ho. lia.
Qed.

Lemma removed_left_last (s region : str) (j : nat) :
  last_occurrence s region j ->
  removed s region false = skipn (j + length region) s.
Proof.
  intros Hj. unfold removed. rewrite (rfind_last _ _ _ Hj). unfold len.
  rewrite <- Nat2Z.inj_add. apply slice_from_nat.
  destruct Hj as [Ho _]. apply occurs_at_bound in Ho. lia.
Qed.

Lemma removed_right_absent (s region : str) :
  ~ substring region s -> removed s region true = removelast s.
Proof.
  intros Habs. unfold removed. rewrite (proj1 (find_absent _ _) Habs).
  rewrite slice_to. unfold slice_bound. cbn [Z.ltb Z.compare].
  rewrite removelast_firstn_len. f_equal. unfold len. lia.
Qed.

Lemma removed_left_absent (s region : str) :
  ~ substring region s ->
  removed s region false = skipn (length region - 1) s.
Proof.
  intros Habs. pose proof (substring_nonempty_absent _ _ Habs) as Hne.
  assert (Hlen : (1 <= length region)%nat)
    by (destruct region; [congruence | simpl; lia]).
  unfold removed. rewrite (proj1 (rfind_absent _ _) Habs).
  rewrite slice_from, slice_bound_nonneg by (unfold len; lia).
  unfold len.
  destruct (Nat.le_gt_cases (length region - 1) (length s)) as [Hle | Hgt].
  - rewrite Z.min_l by lia. f_equal. lia.
  - rewrite Z.min_r by lia. rewrite Nat2Z.id.
    rewrite !skipn_all2 by lia. reflexivity.
Qed.

Section MoreTrimmerFacts.

Variable record_str : SeqRecord -> str.
Variable aligner : str -> str -> list Alignment.

(** X1: for a read [R] that holds the gap-free adaptor [A] as an exact
    substring and a tolerance [e >= 0], [trim_adaptor] with
    [right_side=False] returns the part of [R] after the last occurrence
    of [A], without calling the aligner. *)
Theorem trim_adaptor_exact_left (R A : str) (e : Z) (h : heap) :
  substring A R -> gap_free A -> 0 <= e ->
  exists j,
    last_occurrence R A j
    /\ trim_adaptor record_str (VStr R) A e false h
       = Ret (VStr (skipn (j + length A) R), h)
    /\ no_alignment_call (trim_adaptor record_str (VStr R) A e false h).
Proof.
  intros Hsub Hgap He.
  destruct (rfind_substring R A Hsub) as (j & Hlast & _).
  destruct (find_substring R A Hsub) as (i & _ & Hfind).
  assert (Heq : trim_adaptor record_str (VStr R) A e false h
                = Ret (VStr (skipn (j + length A) R), h)).
  { rewrite trim_adaptor_exact by lia.
    destruct (0 >? e) eqn:E; [lia|].
    rewrite replace_gap_free by exact Hgap.
    rewrite (removed_left_last _ _ _ Hlast). reflexivity. }
  exists j. split; [exact Hlast|]. split; [exact Heq|].
  rewrite Heq. exact I.
Qed.

(** X2: after an exact match is trimmed away, on either side, the adaptor
    (gap-free and non-empty) no longer occurs in what is returned. *)
Theorem exact_trim_leaves_no_adaptor (R A : str) (e : Z) (right_side : bool)
  (h : heap) :
  substring A R -> gap_free A -> A <> [] -> 0 <= e ->
  exists t,
    trim_adaptor record_str (VStr R) A e right_side h = Ret (VStr t, h)
    /\ ~ substring A t.
Proof.
  intros Hsub Hgap Hne He.
  assert (Hlen : (1 <= length A)%nat)
    by (destruct A; [congruence | simpl; lia]).
  destruct (find_substring R A Hsub) as (i & Hfirst & Hfind).
  rewrite trim_adaptor_exact by lia.
  destruct (0 >? e) eqn:E; [lia|].
  rewrite replace_gap_free by exact Hgap.
  eexists. split; [reflexivity|]. destruct right_side.
  - rewrite (removed_right_first _ _ _ Hfirst). intros [k Hk].
    pose proof (occurs_at_bound _ _ _ Hk) as Hb.
    apply (occurs_at_app_l _ (skipn i R)) in Hk.
    rewrite firstn_skipn in Hk. apply (proj2 Hfirst) in Hk.
    rewrite length_firstn in Hb. lia.
  - destruct (rfind_substring R A Hsub) as (j & Hlast & _).
    rewrite (removed_left_last _ _ _ Hlast). intros [k Hk].
    apply (occurs_at_app_r (firstn (j + length A) R)) in Hk.
    rewrite firstn_skipn in Hk. apply (proj2 Hlast) in Hk.
    pose proof (occurs_at_bound _ _ _ (proj1 Hlast)) as Hb.
    rewrite length_firstn in Hk. lia.
Qed.

(** X3: with a negative tolerance even an exact occurrence of the adaptor
    in a string read is rejected: the string read is returned as it is,
    on either side, and the aligner is not called. *)
Theorem trim_adaptor_negative_tolerance (R A : str) (e : Z)
  (right_side : bool) (h : heap) :
  substring A R -> e < 0 ->
  trim_adaptor record_str (VStr R) A e right_side h = Ret (VStr R, h).
Proof.
  intros Hsub He.
  destruct (find_substring R A Hsub) as (i & _ & Hfind).
  rewrite trim_adaptor_exact by lia.
  destruct (0 >? e) eqn:E; [reflexivity | lia].
Qed.

(** X4: [_remove_adaptor] does not check the [-1] of a failed look-up.
    When [region] does not occur in [seq], the right side returns [seq]
    without its last symbol and the left side returns [seq] from index
    [len(region) - 1] on. *)
Theorem remove_adaptor_absent_region (s region : str) (h : heap) :
  ~ substring region s ->
  _remove_adaptor (VStr s) region true h = Ret (VStr (removelast s), h)
  /\ _remove_adaptor (VStr s) region false h
     = Ret (VStr (skipn (length region - 1) s), h).
Proof.
  intros Habs. rewrite !remove_adaptor_str.
  rewrite (removed_right_absent _ _ Habs), (removed_left_absent _ _ Habs).
  split; reflexivity.
Qed.

(** X5: when [region] occurs in [seq], what the right side keeps, the
    region and what the left side keeps fit into [seq] without overlap;
    when it occurs exactly once, at [seq = p ++ region ++ q], the right
    side returns [p] and the left side returns [q], so that the two
    results and the region put [seq] together again. *)
Theorem remove_adaptor_flanks (s region : str) (h : heap) :
  substring region s ->
  exists left right,
    _remove_adaptor (VStr s) region true h = Ret (VStr left, h)
    /\ _remove_adaptor (VStr s) region false h = Ret (VStr right, h)
    /\ len left + len region + len right <= len s
    /\ ((forall i j, occurs_at s region i -> occurs_at s region j -> i = j) ->
        s = left ++ region ++ right).
Proof.
  intros Hsub.
  destruct (find_substring s region Hsub) as (i & Hfirst & _).
  destruct (rfind_substring s region Hsub) as (j & Hlast & _).
  exists (firstn i s), (skipn (j + length region) s).
  rewrite !remove_adaptor_str.
  rewrite (removed_right_first _ _ _ Hfirst), (removed_left_last _ _ _ Hlast).
  split; [reflexivity|]. split; [reflexivity|].
  pose proof (occurs_at_bound _ _ _ (proj1 Hfirst)) as Hbi.
  pose proof (occurs_at_bound _ _ _ (proj1 Hlast)) as Hbj.
  pose proof (proj2 Hfirst j (proj1 Hlast)) as Hij.
  split.
  - unfold len. rewrite length_firstn, length_skipn. lia.
  - intros Huniq. assert (i = j) as <- by (apply Huniq; [apply Hfirst | apply Hlast]).
    destruct Hfirst as [(p & q & Hs & Hp) _]. subst i s.
    assert (H1 : firstn (length p) (p ++ region ++ q) = p).
    { rewrite firstn_app, firstn_all, Nat.sub_diag. simpl. apply app_nil_r. }
    assert (H2 : skipn (length p + length region) (p ++ region ++ q) = q).
    { rewrite <- length_app, app_assoc, skipn_app, skipn_all, Nat.sub_diag.
      reflexivity. }
    rewrite H1, H2. reflexivity.
Qed.

(** X6: on a read without exact occurrence of the adaptor, [trim_adaptor]
    raises [IndexError] exactly when the read-side region cut from the
    first alignment is longer than the adaptor-side region; on a read
    with an exact occurrence it returns, whatever the aligner. *)
Theorem trim_adaptor_index_error (s adaptor : str) (num_errors : Z)
  (right_side : bool) (h : heap) :
  (~ substring adaptor s ->
   (run aligner (trim_adaptor record_str (VStr s) adaptor num_errors right_side h)
    = Raises IndexError
    <-> (length (snd (alignment_regions (aligner s adaptor)))
         < length (fst (alignment_regions (aligner s adaptor))))%nat))
  /\ (substring adaptor s ->
      exists t,
        run aligner
          (trim_adaptor record_str (VStr s) adaptor num_errors right_side h)
        = Returns (VStr t, h)).
Proof.
  split.
  - intros Habs. apply find_absent in Habs.
    destruct (alignment_regions (aligner s adaptor)) as [sr ar] eqn:R.
    assert (Hr : run aligner (match_regions record_str (VStr s) adaptor h)
                 = Returns ((sr, ar), h))
      by (rewrite match_regions_fallback, R by lia; reflexivity).
    rewrite (run_trim_adaptor_str _ _ _ _ _ _ _ _ _ Hr). cbn [fst snd].
    rewrite <- sum_matches_index_error.
    destruct (sum_matches ar (enumerate sr)) as [m|].
    + destruct (len adaptor - m >? num_errors); split; discriminate.
    + split; reflexivity.
  - intros Hsub. destruct (find_substring s adaptor Hsub) as (i & _ & Hfind).
    rewrite trim_adaptor_exact by lia.
    destruct (0 >? num_errors); eexists; reflexivity.
Qed.

(** X12: without exact occurrence and without alignment, a tolerance of
    [len(adaptor)] or more lets the empty region through, and removing it
    discards the whole read: the empty string is returned on either
    side. *)
Theorem trim_adaptor_no_alignment_discards (s adaptor : str) (num_errors : Z)
  (right_side : bool) (h : heap) :
  ~ substring adaptor s ->
  aligner s adaptor = [] ->
  len adaptor <= num_errors ->
  run aligner (trim_adaptor record_str (VStr s) adaptor num_errors right_side h)
  = Returns (VStr [], h).
Proof.
  intros Habs Hal He. apply find_absent in Habs.
  assert (Hr : run aligner (match_regions record_str (VStr s) adaptor h)
               = Returns (([], []), h))
    by (rewrite match_regions_fallback, Hal by lia; reflexivity).
  rewrite (run_trim_adaptor_str _ _ _ _ _ _ _ _ _ Hr).
  cbn [enumerate enumerate_from sum_matches]. rewrite Z.sub_0_r.
  destruct (len adaptor >? num_errors) eqn:E; [lia|].
  change (replace [] gap_char []) with (@nil ascii).
  rewrite removed_empty. reflexivity.
Qed.

(** X13: a matched region shorter than [len(adaptor) - num_errors] is
    never accepted: the count cannot exceed the length of the read-side
    region, so the read is returned as it is, on either side. *)
Theorem short_region_rejected (s adaptor : str) (num_errors : Z)
  (right_side : bool) (h : heap) (seq_region adapt_region : str) :
  aligner_ok aligner ->
  run aligner (match_regions record_str (VStr s) adaptor h)
  = Returns ((seq_region, adapt_region), h) ->
  len seq_region < len adaptor - num_errors ->
  run aligner (trim_adaptor record_str (VStr s) adaptor num_errors right_side h)
  = Returns (VStr s, h).
Proof.
  intros Hok Hr Hshort.
  destruct (regions_length record_str aligner s adaptor h Hok)
    as (sr & ar & Hr' & Hlen).
  rewrite Hr in Hr'. injection Hr' as <- <-.
  rewrite (run_trim_adaptor_str _ _ _ _ _ _ _ _ _ Hr).
  rewrite sum_matches_enumerate by lia.
  pose proof (agreeing_range seq_region adapt_region) as Hm.
  destruct (len adaptor - agreeing seq_region adapt_region >? num_errors) eqn:E;
    [reflexivity | lia].
Qed.

(** X14: raising the tolerance never alters a trim that was accepted: for
    [e <= e'], either [trim_adaptor] with tolerance [e] returns the read
    as it is, or it ends with tolerance [e'] exactly as with [e]. *)
Theorem trim_adaptor_tolerance_monotone (s adaptor : str) (e e' : Z)
  (right_side : bool) (h : heap) :
  e <= e' ->
  run aligner (trim_adaptor record_str (VStr s) adaptor e right_side h)
  = Returns (VStr s, h)
  \/ run aligner (trim_adaptor record_str (VStr s) adaptor e' right_side h)
     = run aligner (trim_adaptor record_str (VStr s) adaptor e right_side h).
Proof.
  intros He.
  destruct (match_regions_str_returns record_str aligner s adaptor h)
    as (sr & ar & Hr & _).
  rewrite !(run_trim_adaptor_str _ _ _ _ _ _ _ _ _ Hr).
  destruct (sum_matches ar (enumerate sr)) as [m|]; [|right; reflexivity].
  destruct (len adaptor - m >? e) eqn:E; [left; reflexivity|].
  right. destruct (len adaptor - m >? e') eqn:E'; [lia | reflexivity].
Qed.

(** *** Qualities *)

Lemma prefix_firstn (t s : str) : is_prefix t s -> firstn (length t) s = t.
Proof.
  intros [q ->]. rewrite firstn_app, firstn_all, Nat.sub_diag. simpl.
  apply app_nil_r.
Qed.

Lemma suffix_skipn (t s : str) :
  is_suffix t s -> skipn (length s - length t) s = t.
Proof.
  intros [p ->]. rewrite length_app.
  replace (length p + length t - length t)%nat with (length p) by lia.
  rewrite skipn_app, skipn_all, Nat.sub_diag. reflexivity.
Qed.

Lemma slice_span {A : Type} (q : list A) (a b : Z) :
  0 <= a <= b -> b <= len q ->
  slice q (Some a) (Some b) = firstn (Z.to_nat (b - a)) (skipn (Z.to_nat a) q).
Proof.
  intros H1 H2. unfold slice. rewrite !slice_bound_nonneg by lia.
  rewrite !Z.min_l by lia. reflexivity.
Qed.

(** [trim_adaptor_w_qual] on a string read of the length of [qual]: it
    ends as [trim_adaptor] does, with the slice of [qual] added. *)
Lemma run_trim_adaptor_w_qual_str (s qual adaptor : str) (num_errors : Z)
  (right_side : bool) (h : heap) :
  len s = len qual ->
  (exists t,
     (if right_side then is_prefix t s else is_suffix t s)
     /\ run aligner
          (trim_adaptor_w_qual record_str (VStr s) qual adaptor num_errors
             right_side h)
        = Returns
            ((VStr t,
              slice qual
                (Some (if right_side then find s t else rfind s t))
                (Some ((if right_side then find s t else rfind s t) + len t))),
             h))
  \/ run aligner
       (trim_adaptor_w_qual record_str (VStr s) qual adaptor num_errors
          right_side h)
     = Raises IndexError.
Proof.
  intros Heq. unfold trim_adaptor_w_qual.
  rewrite run_bind. cbn [py_len ret run].
  rewrite run_bind. rewrite (proj2 (Z.eqb_eq _ _) Heq). cbn [assert ret run].
  rewrite run_bind.
  destruct (trim_adaptor_str_result record_str aligner s adaptor num_errors
              right_side h) as [(t & Ht & Hside) | [Hx _]].
  - left. exists t. split; [exact Hside|]. rewrite Ht, run_bind.
    set (pos := if right_side then find s t else rfind s t).
    assert (Hpos : run aligner
              ((if right_side then find_method (VStr s) (VStr t)
                else rfind_method (VStr s) (VStr t)) h)
            = Returns (pos, h))
      by (subst pos; destruct right_side; reflexivity).
    rewrite Hpos, run_bind. cbn [py_len ret run]. rewrite run_bind.
    assert (Hlen : len t = len (slice qual (Some pos) (Some (pos + len t)))).
    { subst pos. pose proof (len_nonneg t). destruct right_side.
      - rewrite (prefix_find _ _ Hside). apply prefix_len in Hside.
        rewrite slice_len by lia. lia.
      - rewrite (suffix_rfind _ _ Hside). apply suffix_len in Hside.
        rewrite slice_len by lia. lia. }
    rewrite (proj2 (Z.eqb_eq _ _) Hlen). reflexivity.
  - right. rewrite Hx. reflexivity.
Qed.

(** X7: the qualities stay in register with the bases.  When
    [trim_adaptor_w_qual] returns [(tseq, tqual)] for a string read, then
    on the right side [tseq] and [tqual] are the first [len(tseq)] symbols
    of [seq] and of [qual], and on the left side they are [seq] and [qual]
    from index [len(seq) - len(tseq)] on. *)
Theorem trim_adaptor_w_qual_in_register (s qual adaptor : str)
  (num_errors : Z) (right_side : bool) (h h' : heap) (tseq tqual : str) :
  len s = len qual ->
  run aligner
    (trim_adaptor_w_qual record_str (VStr s) qual adaptor num_errors
       right_side h)
  = Returns ((VStr tseq, tqual), h') ->
  if right_side
  then tseq = firstn (length tseq) s /\ tqual = firstn (length tseq) qual
  else tseq = skipn (length s - length tseq) s
       /\ tqual = skipn (length s - length tseq) qual.
Proof.
  intros Heq Hrun.
  destruct (run_trim_adaptor_w_qual_str s qual adaptor num_errors right_side
              h Heq) as [(t & Hside & Ht) | Hx]; [|congruence].
  rewrite Ht in Hrun. injection Hrun as <- <- _.
  pose proof (len_nonneg t) as Hnn. destruct right_side.
  - split; [symmetry; apply prefix_firstn; exact Hside|].
    rewrite (prefix_find _ _ Hside). apply prefix_len in Hside.
    rewrite slice_span by lia. cbn [Z.to_nat skipn]. f_equal.
    unfold len. lia.
  - split; [symmetry; apply suffix_skipn; exact Hside|].
    rewrite (suffix_rfind _ _ Hside). apply suffix_len in Hside.
    rewrite slice_span by lia.
    replace (Z.to_nat (len s - len t)) with (length s - length t)%nat
      by (unfold len in *; lia).
    apply firstn_all2. rewrite length_skipn. unfold len in *. lia.
Qed.

Lemma py_len_rec (l : loc) (r : SeqRecord) (h : heap) :
  nth_error h l = Some r -> py_len (VRec l) h = Ret (len (rec_seq r), h).
Proof.
  intros H. unfold py_len, bind. rewrite (deref_some _ _ _ H). reflexivity.
Qed.

(** X8: [trim_adaptor_w_qual] never returns for a record read.  Unlike
    [_remove_adaptor] it calls [seq.find] and [seq.rfind] without the
    fallback to [seq.seq]: when the lengths agree and [trim_adaptor]
    returns, [AttributeError] is raised, and every other run ends in the
    exception raised before. *)
Theorem trim_adaptor_w_qual_record (l : loc) (qual adaptor : str)
  (num_errors : Z) (right_side : bool) (h : heap) :
  (exists x,
     run aligner
       (trim_adaptor_w_qual record_str (VRec l) qual adaptor num_errors
          right_side h)
     = Raises x)
  /\ (forall r v h1,
        nth_error h l = Some r ->
        len (rec_seq r) = len qual ->
        run aligner
          (trim_adaptor record_str (VRec l) adaptor num_errors right_side h)
        = Returns (v, h1) ->
        run aligner
          (trim_adaptor_w_qual record_str (VRec l) qual adaptor num_errors
             right_side h)
        = Raises AttributeError).
Proof.
  assert (Hfind : forall v h1,
    run aligner
      ((if right_side then find_method (VRec l) v else rfind_method (VRec l) v)
         h1)
    = Raises AttributeError)
    by (intros v h1; destruct right_side; destruct v; reflexivity).
  unfold trim_adaptor_w_qual. rewrite run_bind.
  destruct (nth_error h l) as [r|] eqn:Hl.
  - rewrite (py_len_rec _ _ _ Hl). cbn [run]. rewrite run_bind.
    destruct (len (rec_seq r) =? len qual) eqn:E; cbn [assert ret raise run].
    + rewrite run_bind.
      destruct (run aligner
                  (trim_adaptor record_str (VRec l) adaptor num_errors
                     right_side h)) as [[v h1]|x] eqn:Ht.
      * rewrite run_bind, Hfind. split; [eexists; reflexivity|].
        intros r' v' h1' _ _ _. reflexivity.
      * split; [eexists; reflexivity|]. intros r' v' h1' _ _ Hc. discriminate.
    + split; [eexists; reflexivity|]. intros r' v' h1' [= <-] Hc _.
      apply Z.eqb_eq in Hc. congruence.
  - unfold py_len, bind, deref. rewrite Hl. cbn [pbind run].
    split; [eexists; reflexivity|]. intros r' v' h1' Hc. discriminate.
Qed.

(** *** The driver *)

Lemma written_for_cases (adaptor_seq : str) (num_errors : Z) (h : heap)
  (rec : FastqRecord) :
  written_for record_str aligner adaptor_seq num_errors h rec = []
  \/ exists s t,
       fq_seq rec = VStr s
       /\ written_for record_str aligner adaptor_seq num_errors h rec
          = [fasta_record rec t]
       /\ is_prefix t s
       /\ 0 < len t < len s.
Proof.
  unfold written_for. destruct (fq_seq rec) as [s|l]; [|left; reflexivity].
  destruct (trim_adaptor_str_result record_str aligner s adaptor_seq
              num_errors true h) as [(t & Ht & Hp) | [Hx _]].
  - rewrite Ht.
    destruct (0 <? len t) eqn:E1; destruct (len t <? len s) eqn:E2;
      cbn [andb]; try (left; reflexivity).
    right. exists s, t. apply Z.ltb_lt in E1. apply Z.ltb_lt in E2.
    split; [reflexivity|]. split; [reflexivity|]. split; [exact Hp | lia].
  - rewrite Hx. left. reflexivity.
Qed.

(** The loop appends, record by record, what each turn writes. *)
Lemma run_main_loop_written (adaptor_seq : str) (num_errors : Z)
  (records : list FastqRecord) (h : heap) :
  aligner_ok aligner ->
  (forall rec, In rec records -> exists s, fq_seq rec = VStr s) ->
  forall out,
    run aligner (main_loop record_str adaptor_seq num_errors records out h)
    = Returns
        (out ++ flat_map (written_for record_str aligner adaptor_seq
                            num_errors h) records, h).
Proof.
  intros Hok. induction records as [|rec rest IH]; intros Hstr out.
  - cbn [main_loop ret run flat_map]. rewrite app_nil_r. reflexivity.
  - destruct (Hstr rec (or_introl eq_refl)) as [s Hs].
    destruct (trim_adaptor_str_returns record_str aligner s adaptor_seq
                num_errors true h Hok) as (t & Ht & _).
    cbn [main_loop flat_map]. rewrite run_bind.
    rewrite (run_main_body record_str aligner _ _ _ _ _ _ _ Hs Ht).
    rewrite (IH (fun r Hr => Hstr r (or_intror Hr))).
    rewrite <- app_assoc. unfold written_for at 2. rewrite Hs, Ht.
    reflexivity.
Qed.

(** X9: the driver treats the records one by one: what it writes for two
    inputs put one after the other is what it writes for the first
    followed by what it writes for the second. *)
Theorem main_app (records1 records2 : list FastqRecord) (adaptor_seq : str)
  (num_errors : Z) (h : heap) :
  aligner_ok aligner ->
  (forall rec, In rec (records1 ++ records2) -> exists s, fq_seq rec = VStr s) ->
  exists out1 out2,
    run aligner (main record_str records1 adaptor_seq num_errors h)
    = Returns (out1, h)
    /\ run aligner (main record_str records2 adaptor_seq num_errors h)
       = Returns (out2, h)
    /\ run aligner
         (main record_str (records1 ++ records2) adaptor_seq num_errors h)
       = Returns (out1 ++ out2, h).
Proof.
  intros Hok Hstr. unfold main.
  rewrite !run_main_loop_written; try exact Hok; try exact Hstr;
    try (intros rec Hin; apply Hstr; apply in_or_app; auto).
  cbn [app]. rewrite flat_map_app. eexists _, _.
  split; [reflexivity|]. split; reflexivity.
Qed.

(** X10: the driver writes its records in the order of the input, at
    most one for each input record; what is written carries the
    identifier of the input record, no letter annotations, and as its
    sequence a non-empty proper prefix of the input record's sequence. *)
Theorem main_output_shape (records : list FastqRecord) (adaptor_seq : str)
  (num_errors : Z) (h : heap) :
  aligner_ok aligner ->
  (forall rec, In rec records -> exists s, fq_seq rec = VStr s) ->
  exists out keep,
    run aligner (main record_str records adaptor_seq num_errors h)
    = Returns (out, h)
    /\ map fq_id out = map fq_id (filter keep records)
    /\ (length out <= length records)%nat
    /\ forall w, In w out ->
         fq_letter_annotations w = []
         /\ exists rec s t,
              In rec records
              /\ fq_id w = fq_id rec
              /\ fq_seq rec = VStr s
              /\ fq_seq w = VStr t
              /\ is_prefix t s /\ t <> [] /\ t <> s.
Proof.
  intros Hok Hstr. unfold main.
  rewrite run_main_loop_written by assumption. cbn [app].
  set (W := written_for record_str aligner adaptor_seq num_errors h).
  exists (flat_map W records),
    (fun rec => match W rec with [] => false | _ :: _ => true end).
  split; [reflexivity|].
  assert (Hcases : forall rec,
            W rec = []
            \/ exists s t, fq_seq rec = VStr s /\ W rec = [fasta_record rec t]
                           /\ is_prefix t s /\ 0 < len t < len s)
    by (intros rec; apply written_for_cases).
  split; [|split].
  - clear Hstr. induction records as [|rec rest IH]; [reflexivity|].
    cbn [flat_map filter]. rewrite map_app, IH.
    destruct (Hcases rec) as [-> | (s & t & _ & -> & _)]; reflexivity.
  - clear Hstr. induction records as [|rec rest IH]; [simpl; lia|].
    cbn [flat_map length]. rewrite length_app.
    destruct (Hcases rec) as [-> | (s & t & _ & -> & _)]; simpl; lia.
  - intros w Hw. apply in_flat_map in Hw. destruct Hw as (rec & Hin & Hw).
    destruct (Hcases rec) as [Hnil | (s & t & Hs & Heq & Hp & Hlt)].
    + rewrite Hnil in Hw. destruct Hw.
    + rewrite Heq in Hw. destruct Hw as [<- | []].
      split; [reflexivity|]. exists rec, s, t.
      split; [exact Hin|]. split; [reflexivity|]. split; [exact Hs|].
      split; [reflexivity|]. split; [exact Hp|].
      split; intros ->; [unfold len in Hlt; simpl in Hlt|]; lia.
Qed.

Lemma main_body_exact (adaptor_seq : str) (num_errors : Z)
  (out : list FastqRecord) (rec : FastqRecord) (s : str) (h : heap) :
  fq_seq rec = VStr s ->
  substring adaptor_seq s ->
  exists out',
    main_body record_str adaptor_seq num_errors out rec h = Ret (out', h).
Proof.
  intros Hs Hsub. destruct (find_substring s adaptor_seq Hsub) as (i & _ & Hfind).
  unfold main_body, bind. rewrite Hs, trim_adaptor_exact by lia.
  destruct (0 >? num_errors); cbn [pbind fst snd py_len ret];
    match goal with
    | |- context [if ?c then _ else _] => destruct c
    end; eexists; reflexivity.
Qed.

(** X11: when every read holds the adaptor as an exact substring, the
    driver runs to its end without a single call to the aligner. *)
Theorem main_exact_reads (records : list FastqRecord) (adaptor_seq : str)
  (num_errors : Z) (h : heap) :
  (forall rec, In rec records ->
     exists s, fq_seq rec = VStr s /\ substring adaptor_seq s) ->
  exists out,
    main record_str records adaptor_seq num_errors h = Ret (out, h)
    /\ no_alignment_call (main record_str records adaptor_seq num_errors h).
Proof.
  intros Hex.
  assert (Hloop : forall out, exists out',
            main_loop record_str adaptor_seq num_errors records out h
            = Ret (out', h)).
  { induction records as [|rec rest IH]; intros out.
    - exists out. reflexivity.
    - destruct (Hex rec (or_introl eq_refl)) as (s & Hs & Hsub).
      destruct (main_body_exact adaptor_seq num_errors out rec s h Hs Hsub)
        as [out1 H1].
      destruct (IH (fun r Hr => Hex r (or_intror Hr)) out1) as [out2 H2].
      exists out2. cbn [main_loop]. unfold bind at 1. rewrite H1.
      cbn [pbind fst snd]. exact H2. }
  destruct (Hloop []) as [out Hout]. exists out. unfold main.
  rewrite Hout. split; [reflexivity | exact I].
Qed.

End MoreTrimmerFacts.

(** ** The further facts at concrete inputs *)

Lemma trim_adaptor_exact_left_witness :
  exists j,
    last_occurrence t_1_read (lit "GATCGATC") j
    /\ trim_adaptor inner_str (VStr t_1_read) (lit "GATCGATC") 2 false []
       = Ret (VStr (skipn (j + length (lit "GATCGATC")) t_1_read), [])
    /\ no_alignment_call
         (trim_adaptor inner_str (VStr t_1_read) (lit "GATCGATC") 2 false []).
Proof.
  apply (trim_adaptor_exact_left inner_str t_1_read (lit "GATCGATC") 2 []).
  - exists 3%nat, (lit "GGG"), (lit "GATCCCC"). split; reflexivity.
  - unfold gap_free, lit. cbn [list_ascii_of_string In].
    intros H. repeat (destruct H as [H | H]; [discriminate H|]). exact H.
  - lia.
Defined.

Lemma exact_trim_leaves_no_adaptor_witness :
  exists t,
    trim_adaptor inner_str (VStr t_1_read) (lit "GATCGATC") 2 true []
    = Ret (VStr t, [])
    /\ ~ substring (lit "GATCGATC") t.
Proof.
  apply (exact_trim_leaves_no_adaptor inner_str t_1_read (lit "GATCGATC") 2
           true []).
  - exists 3%nat, (lit "GGG"), (lit "GATCCCC"). split; reflexivity.
  - unfold gap_free, lit. cbn [list_ascii_of_string In].
    intros H. repeat (destruct H as [H | H]; [discriminate H|]). exact H.
  - discriminate.
  - lia.
Defined.

Lemma trim_adaptor_negative_tolerance_witness :
  trim_adaptor inner_str (VStr t_1_read) t_adaptor (-1) true []
  = Ret (VStr t_1_read, []).
Proof.
  apply (trim_adaptor_negative_tolerance inner_str t_1_read t_adaptor (-1)
           true []).
  - exists 3%nat, (lit "GGG"), (lit "CCC"). split; reflexivity.
  - lia.
Defined.

Lemma remove_adaptor_absent_region_witness :
  _remove_adaptor (VStr (lit "GGGCCC")) (lit "TA") true []
  = Ret (VStr (lit "GGGCC"), [])
  /\ _remove_adaptor (VStr (lit "GGGCCC")) (lit "TA") false []
     = Ret (VStr (lit "GGCCC"), []).
Proof.
  apply (remove_adaptor_absent_region (lit "GGGCCC") (lit "TA") []).
  apply find_absent. reflexivity.
Defined.

Lemma remove_adaptor_flanks_witness :
  exists left right,
    _remove_adaptor (VStr t_1_read) t_adaptor true [] = Ret (VStr left, [])
    /\ _remove_adaptor (VStr t_1_read) t_adaptor false [] = Ret (VStr right, [])
    /\ len left + len t_adaptor + len right <= len t_1_read
    /\ ((forall i j, occurs_at t_1_read t_adaptor i ->
                     occurs_at t_1_read t_adaptor j -> i = j) ->
        t_1_read = left ++ t_adaptor ++ right).
Proof.
  apply (remove_adaptor_flanks t_1_read t_adaptor []).
  exists 3%nat, (lit "GGG"), (lit "CCC"). split; reflexivity.
Defined.

Lemma trim_adaptor_index_error_witness :
  run ragged_aligner (trim_adaptor inner_str (VStr t_6_read) t_6_adaptor 2 true [])
  = Raises IndexError
  /\ exists t,
       run ragged_aligner
         (trim_adaptor inner_str (VStr t_1_read) t_adaptor 2 true [])
       = Returns (VStr t, []).
Proof.
  destruct (trim_adaptor_index_error inner_str ragged_aligner t_6_read
              t_6_adaptor 2 true []) as [Habsent _].
  destruct (trim_adaptor_index_error inner_str ragged_aligner t_1_read
              t_adaptor 2 true []) as [_ Hexact].
  split.
  - apply Habsent; [apply find_absent; reflexivity|]. vm_compute. lia.
  - apply Hexact. exists 3%nat, (lit "GGG"), (lit "CCC"). split; reflexivity.
Defined.

Lemma trim_adaptor_w_qual_in_register_witness :
  (lit "GGG" = firstn (length (lit "GGG")) t_2_read
   /\ lit "YDV" = firstn (length (lit "GGG")) t_5_qual)
  /\ (lit "CCC" = skipn (length t_2_read - length (lit "CCC")) t_2_read
      /\ lit "`_O" = skipn (length t_2_read - length (lit "CCC")) t_5_qual).
Proof.
  split.
  - apply (trim_adaptor_w_qual_in_register inner_str t_2_aligner t_2_read
             t_5_qual t_adaptor 2 true [] [] (lit "GGG") (lit "YDV"));
      reflexivity.
  - apply (trim_adaptor_w_qual_in_register inner_str t_2_aligner t_2_read
             t_5_qual t_adaptor 2 false [] [] (lit "CCC") (lit "`_O"));
      reflexivity.
Defined.

Lemma trim_adaptor_w_qual_record_witness :
  run t_2_aligner
    (trim_adaptor_w_qual inner_str (VRec 0%nat) t_5_qual t_adaptor 2 true
       [t_4_record])
  = Raises AttributeError.
Proof.
  apply (proj2 (trim_adaptor_w_qual_record inner_str t_2_aligner 0%nat
                  t_5_qual t_adaptor 2 true [t_4_record])
           t_4_record (VRec 1%nat)
           [t_4_record; with_seq t_4_record (lit "GGG")]);
    reflexivity.
Defined.

Lemma main_app_witness :
  exists out1 out2,
    run t_2_aligner (main inner_str [fq_1; fq_3] t_adaptor 2 [])
    = Returns (out1, [])
    /\ run t_2_aligner (main inner_str [fq_2] t_adaptor 2 [])
       = Returns (out2, [])
    /\ run t_2_aligner (main inner_str ([fq_1; fq_3] ++ [fq_2]) t_adaptor 2 [])
       = Returns (out1 ++ out2, []).
Proof.
  apply (main_app inner_str t_2_aligner [fq_1; fq_3] [fq_2] t_adaptor 2 []).
  - exact t_2_aligner_ok.
  - intros rec [<- | [<- | [<- | []]]]; eexists; reflexivity.
Defined.

Lemma main_output_shape_witness :
  exists out keep,
    run t_2_aligner (main inner_str [fq_1; fq_2; fq_3] t_adaptor 2 [])
    = Returns (out, [])
    /\ map fq_id out = map fq_id (filter keep [fq_1; fq_2; fq_3])
    /\ (length out <= length [fq_1; fq_2; fq_3])%nat
    /\ forall w, In w out ->
         fq_letter_annotations w = []
         /\ exists rec s t,
              In rec [fq_1; fq_2; fq_3]
              /\ fq_id w = fq_id rec
              /\ fq_seq rec = VStr s
              /\ fq_seq w = VStr t
              /\ is_prefix t s /\ t <> [] /\ t <> s.
Proof.
  apply (main_output_shape inner_str t_2_aligner [fq_1; fq_2; fq_3] t_adaptor
           2 []).
  - exact t_2_aligner_ok.
  - intros rec [<- | [<- | [<- | []]]]; eexists; reflexivity.
Defined.

Lemma main_exact_reads_witness :
  exists out,
    main inner_str [fq_3; fq_3] t_adaptor 2 [] = Ret (out, [])
    /\ no_alignment_call (main inner_str [fq_3; fq_3] t_adaptor 2 []).
Proof.
  apply (main_exact_reads inner_str [fq_3; fq_3] t_adaptor 2 []).
  intros rec [<- | [<- | []]]; exists t_1_read;
    (split; [reflexivity|]);
    exists 3%nat, (lit "GGG"), (lit "CCC"); split; reflexivity.
Defined.

Lemma trim_adaptor_no_alignment_discards_witness :
  run no_alignment (trim_adaptor inner_str (VStr t_6_read) t_6_adaptor 14 false [])
  = Returns (VStr [], []).
Proof.
  apply (trim_adaptor_no_alignment_discards inner_str no_alignment t_6_read
           t_6_adaptor 14 false []).
  - apply find_absent. reflexivity.
  - reflexivity.
  - vm_compute. discriminate.
Defined.

Lemma short_region_rejected_witness :
  run short_aligner (trim_adaptor inner_str (VStr t_2_read) t_adaptor 2 true [])
  = Returns (VStr t_2_read, []).
Proof.
  apply (short_region_rejected inner_str short_aligner t_2_read t_adaptor 2
           true [] (lit "GATCG") (lit "GATCG")).
  - intros s p a. unfold short_aligner, table_aligner.
    destruct (str_eqb s t_2_read && str_eqb p t_adaptor).
    + intros [<- | []]. reflexivity.
    + intros [].
  - reflexivity.
  - vm_compute. reflexivity.
Defined.

Lemma trim_adaptor_tolerance_monotone_witness :
  run t_2_aligner (trim_adaptor inner_str (VStr t_2_read) t_adaptor 1 true [])
  = Returns (VStr t_2_read, [])
  \/ run t_2_aligner (trim_adaptor inner_str (VStr t_2_read) t_adaptor 5 true [])
     = run t_2_aligner (trim_adaptor inner_str (VStr t_2_read) t_adaptor 1 true []).
Proof.
  apply (trim_adaptor_tolerance_monotone inner_str t_2_aligner t_2_read
           t_adaptor 1 5 true []).
  lia.
Defined.
